(** * Todo slice of the NgRx example application

    A shallow embedding of [todo.actions.ts], [todo.reducer.ts] and
    [todo.selectors.ts], together with the store, registry and selector
    engine that the specification describes around them.

    JavaScript objects are compared by reference ([===]) in several of the
    properties below, so state objects and arrays live in an explicit heap
    and are passed around as locations.  Nothing in the modelled code ever
    writes to an existing object: a reducer only allocates, which is what
    the spread idiom [{ ...state, k: v }] does. *)

From Stdlib Require Import ZArith String List.
From stdpp Require Import base option list strings pretty gmap.

Local Open Scope string_scope.
Local Open Scope list_scope.

(** ** Heap of immutable objects *)

Module Heap.

Definition loc := nat.

(** todo.model.ts is imported by the reducer: [{ id: string; content: string }]. *)
Record Todo := mkTodo { id : string; content : string }.

(** [status: 'pending' | 'loading' | 'error' | 'success'] *)
Inductive Status := SPending | SLoading | SError | SSuccess.

Definition status_literal (s : Status) : string :=
  match s with
  | SPending => "pending"
  | SLoading => "loading"
  | SError => "error"
  | SSuccess => "success"
  end.

(** [interface TodoState].  [todos] is a reference to an array; [error] is
    declared [string] but initialised with [null], hence the option. *)
Record TodoState := mkState {
  todos : loc;
  error : option string;
  status : Status
}.

Inductive Obj :=
| OArray (elems : list Todo)
| OState (st : TodoState).

Definition heap := list Obj.

(** An object or array literal: a fresh location, the old cells untouched. *)
Definition alloc (h : heap) (o : Obj) : heap * loc := (h ++ [o], length h).

Definition read_state (h : heap) (l : loc) : option TodoState :=
  match h !! l with
  | Some (OState st) => Some st
  | _ => None
  end.

Definition read_array (h : heap) (l : loc) : option (list Todo) :=
  match h !! l with
  | Some (OArray xs) => Some xs
  | _ => None
  end.

(** The value of a state object with its array read through: what a deep
    comparison of two states looks at. *)
Record StateValue := mkValue {
  v_todos : list Todo;
  v_error : option string;
  v_status : Status
}.

Definition snapshot (h : heap) (l : loc) : option StateValue :=
  st ← read_state h l;
  xs ← read_array h (todos st);
  Some (mkValue xs (error st) (status st)).

(** [h2] still holds every object of [h1] at its location. *)
Definition extends (h1 h2 : heap) : Prop :=
  ∀ (l : loc) (o : Obj), h1 !! l = Some o → h2 !! l = Some o.

End Heap.

Import Heap.

(** ** todo.actions.ts *)

Module Actions.

(** The properties an action carries besides [type]: one shape per
    [props<...>()] of the file, [PNone] for a creator without props. *)
Inductive Props :=
| PNone
| PContent (content : string)
| PId (id : string)
| PTodos (todos : loc)
| PError (error : string).

Record Action := mkAction { type : string; props : Props }.

Definition addTodo_type := "[Todo Page] Add Todo".
Definition removeTodo_type := "[Todo Page] Remove Todo".
Definition loadTodos_type := "[Todo Page] Load Todos".
Definition loadTodosSuccess_type := "[Todo API] Todo Load Success".
Definition loadTodosFailure_type := "[Todo API] Todo Load Failure".

Definition addTodo (content : string) : Action :=
  mkAction addTodo_type (PContent content).
Definition removeTodo (id : string) : Action :=
  mkAction removeTodo_type (PId id).
Definition loadTodos : Action :=
  mkAction loadTodos_type PNone.
Definition loadTodosSuccess (todos : loc) : Action :=
  mkAction loadTodosSuccess_type (PTodos todos).
Definition loadTodosFailure (error : string) : Action :=
  mkAction loadTodosFailure_type (PError error).

Definition handled_types : list string :=
  [addTodo_type; removeTodo_type; loadTodos_type;
   loadTodosSuccess_type; loadTodosFailure_type].

End Actions.

Import Actions.

(** ** todo.reducer.ts *)

Module Reducer.

(** A state-change function as passed to [on].  [now] is what
    [Date.now()] returns while the function runs.  The result is [None]
    for a run that TypeScript's types rule out: the state is not a
    [TodoState] object with its array (spreading [state.todos] then
    throws), or the action lacks the props its creator declares. *)
Definition Handler := Z → heap → loc → Action → option (heap * loc).

(** [on(creator, fn)]: the creator's [type] paired with the function. *)
Definition On : Type := string * Handler.
Definition on (creator_type : string) (fn : Handler) : On := (creator_type, fn).

Fixpoint find_on (t : string) (ons : list On) : option Handler :=
  match ons with
  | [] => None
  | (t', fn) :: rest => if String.eqb t t' then Some fn else find_on t rest
  end.

(** Modelled from the spec: [createReducer] is imported from @ngrx/store
    and its body is not part of the repository.  The reducer it returns
    looks the action's [type] up among the [on] entries, runs the function
    found, and returns the state it was given when there is none; a
    missing ([undefined]) state stands for the initial state. *)
Definition createReducer (initialState : loc) (ons : list On)
    (now : Z) (h : heap) (state : option loc) (action : Action)
    : option (heap * loc) :=
  let state := default initialState state in
  match find_on (type action) ons with
  | Some fn => fn now h state action
  | None => Some (h, state)
  end.

(** [(state, { content }) => ({ ...state,
      todos: [...state.todos, { id: Date.now().toString(), content: content }] })]
    [Date.now()] is a whole number of milliseconds, and [toString] writes
    it in decimal, which is what [pretty] does on [Z]. *)
Definition on_addTodo : Handler := fun now h state action =>
  match props action with
  | PContent content =>
      st ← read_state h state;
      old ← read_array h (todos st);
      let '(h1, arr) := alloc h (OArray (old ++ [mkTodo (pretty now) content])) in
      Some (alloc h1 (OState (mkState arr (error st) (status st))))
  | _ => None
  end.

(** [(state, { id }) => ({ ...state,
      todos: state.todos.filter((todo) => todo.id !== id) })] *)
Definition on_removeTodo : Handler := fun now h state action =>
  match props action with
  | PId i =>
      st ← read_state h state;
      old ← read_array h (todos st);
      let '(h1, arr) :=
        alloc h (OArray (List.filter (fun todo => negb (String.eqb (id todo) i)) old)) in
      Some (alloc h1 (OState (mkState arr (error st) (status st))))
  | _ => None
  end.

(** [(state) => ({ ...state, status: 'loading' })] *)
Definition on_loadTodos : Handler := fun now h state action =>
  st ← read_state h state;
  Some (alloc h (OState (mkState (todos st) (error st) SLoading))).

(** [(state, { todos }) => ({ ...state, todos: todos, error: null, status: 'success' })] *)
Definition on_loadTodosSuccess : Handler := fun now h state action =>
  match props action with
  | PTodos ts =>
      st ← read_state h state;
      Some (alloc h (OState (mkState ts None SSuccess)))
  | _ => None
  end.

(** [(state, { error }) => ({ ...state, error: error, status: 'error' })] *)
Definition on_loadTodosFailure : Handler := fun now h state action =>
  match props action with
  | PError e =>
      st ← read_state h state;
      Some (alloc h (OState (mkState (todos st) (Some e) SError)))
  | _ => None
  end.

(** The module's top level allocates the empty array and [initialState]
    before anything else runs. *)
Definition heap0 : heap := [OArray []; OState (mkState 0 None SPending)].
Definition initialState : loc := 1.

Definition todoReducer : Z → heap → option loc → Action → option (heap * loc) :=
  createReducer initialState
    [ on addTodo_type on_addTodo;
      on removeTodo_type on_removeTodo;
      on loadTodos_type on_loadTodos;
      on loadTodosSuccess_type on_loadTodosSuccess;
      on loadTodosFailure_type on_loadTodosFailure ].

(** Dispatching a list of actions one after the other.  [clock k] is the
    reading [Date.now()] gives during the [k]-th reducer run. *)
Fixpoint replay (clock : nat → Z) (k : nat) (h : heap) (state : loc)
    (actions : list Action) : option (heap * loc) :=
  match actions with
  | [] => Some (h, state)
  | a :: rest =>
      '(h', state') ← todoReducer (clock k) h (Some state) a;
      replay clock (S k) h' state' rest
  end.

(** The value of the state a replay from [initialState] ends in. *)
Definition replay_value (clock : nat → Z) (actions : list Action) : option StateValue :=
  '(h, state) ← replay clock 0 heap0 initialState actions;
  snapshot h state.

End Reducer.

Import Reducer.


(** ** todo.selectors.ts and the selector engine *)

Module Selector.

(** What an input selector can return, as far as [===] tells values
    apart: strings by their characters, objects by their location. *)
Inductive Value :=
| VUndefined
| VNull
| VString (s : string)
| VRef (l : loc).

#[global] Instance Value_eq_dec : EqDecision Value.
Proof. solve_decision. Defined.

Definition strict_eq (x y : Value) : bool := bool_decide (x = y).

(** Element by element, and the two tuples have to be of one length. *)
Fixpoint same_refs (xs ys : list Value) : bool :=
  match xs, ys with
  | [], [] => true
  | x :: xs', y :: ys' => strict_eq x y && same_refs xs' ys'
  | _, _ => false
  end.

Section Engine.

Context {State Out : Type}.

(** The memo cell, [(lastInputRefs, lastOutput)], and next to it the
    number of times the projector has run so far. *)
Record Memo := mkMemo {
  last : option (list Value * Out);
  calls : nat
}.

Definition fresh_memo : Memo := mkMemo None 0.

Definition InputSelector := heap → State → Value.
Definition Projector := heap → list Value → Out.

Definition results (inputs : list InputSelector) (h : heap) (state : State) : list Value :=
  map (λ input, input h state) inputs.

Definition recompute (projector : Projector) (m : Memo) (h : heap)
    (rs : list Value) : Memo * Out :=
  let out := projector h rs in
  (mkMemo (Some (rs, out)) (S (calls m)), out).

(** Modelled from the spec: [createSelector] is imported from
    @ngrx/store and its body is not part of the repository.  One
    invocation of the selector it returns (a) evaluates every input
    selector on the given state, (b) compares the results with the memo
    cell's tuple by reference, element by element, and (c) returns the
    memoized output without calling the projector when nothing changed,
    and otherwise calls the projector on the results, stores tuple and
    output, and returns the output. *)
Definition createSelector (inputs : list InputSelector) (projector : Projector)
    (m : Memo) (h : heap) (state : State) : Memo * Out :=
  let rs := results inputs h state in
  match last m with
  | Some (args, out) =>
      if same_refs args rs then (m, out) else recompute projector m h rs
  | None => recompute projector m h rs
  end.

(** Invoking a selector on one state after the other, each in the heap
    of its time. *)
Fixpoint select_all (selector : Memo → heap → State → Memo * Out) (m : Memo)
    (runs : list (heap * State)) : Memo * list Out :=
  match runs with
  | [] => (m, [])
  | (h, state) :: rest =>
      let '(m1, out) := selector m h state in
      let '(m2, outs) := select_all selector m1 rest in
      (m2, out :: outs)
  end.

End Engine.

Arguments Memo : clear implicits.

(** Modelled from the spec: app.state.ts is imported by the selectors and
    is not part of the repository; [selectTodos] reads the one slice
    [todos], a [TodoState], from it. *)
Record AppState := mkAppState { todos : loc }.

(** [(state: AppState) => state.todos] *)
Definition selectTodos : @InputSelector AppState :=
  fun _ state => VRef (todos state).

(** [(state: TodoState) => state.todos]; [None] when the argument is not
    a state object. *)
Definition todos_projector : @Projector (option loc) :=
  fun h args =>
    match args with
    | [VRef l] => Heap.todos <$> read_state h l
    | _ => None
    end.

Definition selectAllTodos : Memo (option loc) → heap → AppState → Memo (option loc) * option loc :=
  createSelector [selectTodos] todos_projector.

End Selector.

(** ** Store and reducer registry *)

Module Store.

(** The error taxonomy. *)
Inductive Error := DuplicateSlice | UnknownSlice | ReducerFault | EffectFailure.

(** How a call of [dispatch] ends.  [OutOfFuel] is not an outcome of the
    store: it marks a run that was cut off before the queue was empty. *)
Inductive Outcome := Done | Failed (e : Error) | OutOfFuel.

Section Core.

Context {Slice Action ObsState : Type}.

(** A state is a tree of named slices. *)
Definition State := gmap string Slice.

(** A slice reducer; [None] when it throws. *)
Definition SliceReducer := Slice → Action → option Slice.

(** [register(sliceName, reducer, initialValue)] *)
Record Registration := mkRegistration {
  name : string;
  reducer : SliceReducer;
  initialValue : Slice
}.

(** Modelled from the spec: the registry's [composeRoot] is not part of
    the repository.  The root reducer applies the registered slice
    reducers in registration order, each to its own sub-state of the
    state before the dispatch, and assembles the new state from what
    they return; a slice reducer that throws ends the run. *)
Fixpoint reduce_slices (regs : list Registration) (state next : State)
    (a : Action) : option State :=
  match regs with
  | [] => Some next
  | r :: rest =>
      let sub := default (initialValue r) (state !! name r) in
      match reducer r sub a with
      | None => None
      | Some sub' => reduce_slices rest state (<[name r := sub']> next) a
      end
  end.

Definition composeRoot (regs : list Registration) (state : State) (a : Action)
    : option State :=
  reduce_slices regs state state a.

(** An observer with whatever it remembers between notifications; when
    notified it may call [dispatch] any number of times, and [react]
    gives the actions of these calls in their order. *)
Record Observer := mkObserver {
  memory : ObsState;
  react : ObsState → State → ObsState * list Action
}.

(** An observer that never dispatches. *)
Definition quiet (o : Observer) : Prop :=
  ∀ mem s, (react o mem s).2 = [].

(** What happened, in the order in which it happened. *)
Inductive Event :=
| EDispatch (a : Action)
| EReduce (a : Action) (before after : State)
| EFault (a : Action) (before : State)
| ENotify (i : nat) (s : State).

Record Store := mkStore {
  registry : list Registration;
  current : State;
  subscribers : list Observer;
  queue : list Action;
  dispatching : bool;
  log : list Event
}.

Definition record (e : Event) (st : Store) : Store :=
  mkStore (registry st) (current st) (subscribers st) (queue st)
          (dispatching st) (log st ++ [e]).

(** A call of [dispatch] that finds a dispatch in flight. *)
Definition enqueue (st : Store) (a : Action) : Store :=
  record (EDispatch a)
    (mkStore (registry st) (current st) (subscribers st) (queue st ++ [a])
             (dispatching st) (log st)).

(** One notification round over the subscribers as they were when the
    round began, in registration order; [i] numbers them.  The calls of
    [dispatch] an observer makes arrive while the round is running. *)
Fixpoint notify (i : nat) (subs : list Observer) (s : State) (st : Store)
    : list Observer * Store :=
  match subs with
  | [] => ([], st)
  | o :: rest =>
      let '(mem, acts) := react o (memory o) s in
      let st1 := foldl enqueue (record (ENotify i s) st) acts in
      let '(rest', st2) := notify (S i) rest s st1 in
      (mkObserver mem (react o) :: rest', st2)
  end.

(** Modelled from the spec: the store's dispatch loop is not part of the
    repository.  It takes the queued actions one at a time, oldest
    first: the root reducer runs on the current state, the result
    becomes the current state, and every subscriber is notified with
    it.  A reducer that throws leaves the current state as it is,
    notifies nobody and ends the loop with [ReducerFault]. *)
Fixpoint drain (fuel : nat) (st : Store) : Store * Outcome :=
  match queue st with
  | [] =>
      (mkStore (registry st) (current st) (subscribers st) [] false (log st), Done)
  | a :: q =>
      match fuel with
      | 0 => (st, OutOfFuel)
      | S fuel' =>
          match composeRoot (registry st) (current st) a with
          | None =>
              (record (EFault a (current st))
                 (mkStore (registry st) (current st) (subscribers st) q false (log st)),
               Failed ReducerFault)
          | Some s' =>
              let st1 :=
                record (EReduce a (current st) s')
                  (mkStore (registry st) s' (subscribers st) q true (log st)) in
              let '(subs', st2) := notify 0 (subscribers st1) s' st1 in
              drain fuel'
                (mkStore (registry st2) (current st2) subs' (queue st2)
                         (dispatching st2) (log st2))
          end
      end
  end.

(** Modelled from the spec: [dispatch(action)].  While a dispatch is in
    flight the action is only queued; otherwise the call becomes the
    dispatch in flight and runs the loop until the queue is empty. *)
Definition dispatch (fuel : nat) (st : Store) (a : Action) : Store * Outcome :=
  if dispatching st then (enqueue st a, Done)
  else
    drain fuel
      (enqueue
         (mkStore (registry st) (current st) (subscribers st) (queue st) true (log st))
         a).

(** Reading a log. *)
Definition dispatched (evs : list Event) : list Action :=
  omap (λ e, match e with EDispatch a => Some a | _ => None end) evs.

Definition reduced (evs : list Event) : list Action :=
  omap (λ e, match e with
             | EReduce a _ _ => Some a
             | EFault a _ => Some a
             | _ => None
             end) evs.


Definition is_transition (e : Event) : bool :=
  match e with EDispatch _ => false | _ => true end.

(** The reducer runs and notifications of a log. *)
Definition transitions (evs : list Event) : list Event :=
  List.filter is_transition evs.

(** The notification round that follows a reducer run: every one of
    the [n] subscribers, in registration order, with the new state. *)
Definition round (n : nat) (s : State) : list Event :=
  map (λ i, ENotify i s) (seq 0 n).

(** A log without interleaving, from state [s] on: each reducer run
    starts from the state the run before it ended in, and is followed
    by its whole notification round before the next run starts.  A run
    that throws is the last one. *)
Inductive sequential (regs : list Registration) (n : nat)
    : State → list Event → State → Prop :=
| seq_nil s : sequential regs n s [] s
| seq_fault s a :
    composeRoot regs s a = None →
    sequential regs n s [EFault a s] s
| seq_round s a s' rest s'' :
    composeRoot regs s a = Some s' →
    sequential regs n s' rest s'' →
    sequential regs n s (EReduce a s s' :: round n s' ++ rest) s''.

(** A log that respects the queue, from the pending actions [q] on:
    a call of [dispatch] puts its action at the back, a reducer run
    takes its action from the front. *)
Inductive fifo : list Action → list Event → list Action → Prop :=
| fifo_nil q : fifo q [] q
| fifo_dispatch q a evs q' :
    fifo (q ++ [a]) evs q' → fifo q (EDispatch a :: evs) q'
| fifo_reduce q a s s' evs q' :
    fifo q evs q' → fifo (a :: q) (EReduce a s s' :: evs) q'
| fifo_fault q a s evs q' :
    fifo q evs q' → fifo (a :: q) (EFault a s :: evs) q'
| fifo_notify q i s evs q' :
    fifo q evs q' → fifo q (ENotify i s :: evs) q'.

End Core.

Arguments State : clear implicits.
Arguments Registration : clear implicits.
Arguments Observer : clear implicits.
Arguments Event : clear implicits.
Arguments Store : clear implicits.

End Store.

(** ** The todo slice in a store *)

Module App.

Import Store.

(** A slice of the store is a state object in the heap of its time. *)
Definition Slice : Type := heap * loc.

(** [StoreModule.forRoot({ todos: todoReducer })], with the reading the
    clock gives during the dispatch. *)
Definition todoSlice (now : Z) : Registration Slice Action :=
  mkRegistration "todos"
    (λ '(h, state) a, todoReducer now h (Some state) a)
    (heap0, initialState).

(** An observer that does nothing, as a component showing the list. *)
Definition listView : Observer Slice Action bool :=
  mkObserver false (λ mem _, (mem, [])).

(** An observer that asks for the todos to be loaded the first time it is
    notified, and remembers that it did. *)
Definition loadOnce : Observer Slice Action bool :=
  mkObserver false (λ fired _, if fired then (true, []) else (true, [loadTodos])).


Definition idle_store (now : Z) (s : State Slice) (subs : list (Observer Slice Action bool))
    : Store Slice Action bool :=
  mkStore [todoSlice now] s subs [] false [].

Definition fresh_state : State Slice := {[ "todos" := (heap0, initialState) ]}.



End App.

(** ** Reading the reducer on values *)

Module Values.

(** An action as the creators of todo.actions.ts build it, with the array
    of a [loadTodosSuccess] in the heap, or an action of another slice:
    what TypeScript's types let reach the reducer. *)
Inductive typed (h : heap) : Action → Prop :=
| typed_addTodo c : typed h (addTodo c)
| typed_removeTodo i : typed h (removeTodo i)
| typed_loadTodos : typed h loadTodos
| typed_loadTodosSuccess ts xs :
    read_array h ts = Some xs → typed h (loadTodosSuccess ts)
| typed_loadTodosFailure e : typed h (loadTodosFailure e)
| typed_other a : type a ∉ handled_types → typed h a.

(** A handler that returns has only added objects, and what it returns is
    one of them. *)
Definition allocates (fn : Handler) : Prop :=
  ∀ now h s a h' s', fn now h s a = Some (h', s') →
    extends h h' ∧ (length h ≤ s')%nat ∧ is_Some (read_state h' s').

(** The value of the state one reducer run returns. *)
Definition step_snapshot (now : Z) (h : heap) (state : loc) (a : Action)
    : option StateValue :=
  '(h', state') ← todoReducer now h (Some state) a;
  snapshot h' state'.

(** The value of the state a replay ends in. *)
Definition replay_snapshot (clock : nat → Z) (k : nat) (h : heap) (state : loc)
    (actions : list Action) : option StateValue :=
  '(h', state') ← replay clock k h state actions;
  snapshot h' state'.

(** What one reducer run does to the value of a state, handler by handler
    as in [todoReducer]; the heap is only read for the array an action
    brings along. *)
Definition next_value (now : Z) (h : heap) (v : StateValue) (a : Action)
    : option StateValue :=
  if String.eqb (type a) addTodo_type then
    match props a with
    | PContent c =>
        Some (mkValue (v_todos v ++ [mkTodo (pretty now) c]) (v_error v) (v_status v))
    | _ => None
    end
  else if String.eqb (type a) removeTodo_type then
    match props a with
    | PId i =>
        Some (mkValue (List.filter (fun todo => negb (String.eqb (id todo) i)) (v_todos v))
                      (v_error v) (v_status v))
    | _ => None
    end
  else if String.eqb (type a) loadTodos_type then
    Some (mkValue (v_todos v) (v_error v) SLoading)
  else if String.eqb (type a) loadTodosSuccess_type then
    match props a with
    | PTodos ts => xs ← read_array h ts; Some (mkValue xs None SSuccess)
    | _ => None
    end
  else if String.eqb (type a) loadTodosFailure_type then
    match props a with
    | PError e => Some (mkValue (v_todos v) (Some e) SError)
    | _ => None
    end
  else Some v.

Fixpoint fold_value (clock : nat → Z) (k : nat) (h : heap) (v : StateValue)
    (actions : list Action) : option StateValue :=
  match actions with
  | [] => Some v
  | a :: rest =>
      v' ← next_value (clock k) h v a;
      fold_value clock (S k) h v' rest
  end.

(** The ids of the todos of a state, in their order. *)
Definition ids (v : StateValue) : list string := map id (v_todos v).

(** A clock that has moved on between any two reducer runs. *)
Definition ticking (clock : nat → Z) : Prop :=
  ∀ i j : nat, i < j → (clock i < clock j)%Z.

(** Every id of the state is the reading of a clock earlier than [bound]. *)
Definition stamped_before (bound : Z) (v : StateValue) : Prop :=
  ∀ i : string, i ∈ ids v → ∃ z : Z, (z < bound)%Z ∧ i = pretty z.

End Values.


(** ** Selecting over time *)

Module Selections.

(** Reading the todos of the slice without a memo cell: the input selector
    and then the projector. *)
Definition select_directly (h : heap) (app : Selector.AppState) : option loc :=
  Selector.todos_projector h (Selector.results [Selector.selectTodos] h app).

(** Invocations over time: each heap still holds the objects of the one
    before, and each application state points to a state object. *)
Fixpoint growing (h0 : heap) (runs : list (heap * Selector.AppState)) : Prop :=
  match runs with
  | [] => True
  | (h, app) :: rest =>
      extends h0 h ∧ is_Some (read_state h (Selector.todos app)) ∧ growing h rest
  end.

(** What the memo cell holds is what the projector gives on it, now and in
    every later heap. *)
Definition memo_valid (h : heap) (m : Selector.Memo (option loc)) : Prop :=
  ∀ args out, Selector.last m = Some (args, out) →
    ∀ h', extends h h' → Selector.todos_projector h' args = out.

End Selections.

(** ** The course reducer of the README *)

Module Course.

(** [export interface CourseItem] *)
Record CourseItem := mkCourseItem { id : string; department : string; name : string }.

(** The state is an array of course items; arrays live in a store of their
    own and are never written to once they are there. *)
Definition arrays := list (list CourseItem).

Definition alloc_array (h : arrays) (xs : list CourseItem) : arrays * loc := (h ++ [xs], length h).

(** [CourseActionType.ADD_ITEM] *)
Definition ADD_ITEM : string := "[COURSE] Add Course".

(** An [AddItemAction] with its payload, or an action of another part of
    the application, which has a [type] and nothing the reducer reads. *)
Inductive CourseAction :=
| AddItemAction (payload : CourseItem)
| Foreign (type : string).

Definition type (action : CourseAction) : string :=
  match action with
  | AddItemAction _ => ADD_ITEM
  | Foreign t => t
  end.

(** The module's top level allocates the dummy initial state. *)
Definition arrays0 : arrays := [[mkCourseItem "1" "Computer Engineering" "C++ Programming"]].
Definition initialState : loc := 0.

(** [courseReducer(state = initialState, action)]:
    [switch (action.type) { case ADD_ITEM: return [...state, action.payload];
                            default: return state; }]
    The result is [None] when [state] is not an array, which makes the
    spread throw, or when an action has the type of an [AddItemAction]
    without being one, which TypeScript's types rule out. *)
Definition courseReducer (h : arrays) (state : option loc) (action : CourseAction)
    : option (arrays * loc) :=
  let state := default initialState state in
  if String.eqb (type action) ADD_ITEM then
    match action with
    | AddItemAction payload =>
        xs ← h !! state;
        Some (alloc_array h (xs ++ [payload]))
    | Foreign _ => None
    end
  else Some (h, state).

(** Dispatching a list of actions one after the other. *)
Fixpoint replay_courses (h : arrays) (state : loc) (actions : list CourseAction)
    : option (arrays * loc) :=
  match actions with
  | [] => Some (h, state)
  | a :: rest =>
      '(h', state') ← courseReducer h (Some state) a;
      replay_courses h' state' rest
  end.

(** The payloads of the [AddItemAction]s of a list, in their order. *)
Definition added (actions : list CourseAction) : list CourseItem :=
  omap (λ a, match a with AddItemAction p => Some p | Foreign _ => None end) actions.

(** An action the reducer can be given under its types. *)
Definition course_typed (a : CourseAction) : Prop :=
  match a with
  | AddItemAction _ => True
  | Foreign t => t ≠ ADD_ITEM
  end.

End Course.
(** ** Facts about the heap *)

Section HeapFacts.

Lemma alloc_fresh (h : heap) (o : Obj) : (alloc h o).1 !! (alloc h o).2 = Some o.
Proof. unfold alloc; simpl. apply list_lookup_middle. reflexivity. Qed.

Lemma alloc_extends (h : heap) (o : Obj) : extends h (alloc h o).1.
Proof. intros l o' Hl. unfold alloc; simpl. by apply lookup_app_l_Some. Qed.

Lemma extends_refl (h : heap) : extends h h.
Proof. by intros l o. Qed.

Lemma extends_trans (h1 h2 h3 : heap) : extends h1 h2 → extends h2 h3 → extends h1 h3.
Proof. intros H12 H23 l o Hl. by apply H23, H12. Qed.

Lemma read_state_Some (h : heap) (l : loc) (st : TodoState) :
  read_state h l = Some st ↔ h !! l = Some (OState st).
Proof.
  unfold read_state. destruct (h !! l) as [[xs|st']|]; split; intros H;
    by (discriminate || injection H as ->).
Qed.

Lemma read_array_Some (h : heap) (l : loc) (xs : list Todo) :
  read_array h l = Some xs ↔ h !! l = Some (OArray xs).
Proof.
  unfold read_array. destruct (h !! l) as [[xs'|st]|]; split; intros H;
    by (discriminate || injection H as ->).
Qed.

Lemma read_state_extends (h h' : heap) (l : loc) (st : TodoState) :
  extends h h' → read_state h l = Some st → read_state h' l = Some st.
Proof. rewrite !read_state_Some. intros He Hl. by apply He. Qed.

Lemma read_array_extends (h h' : heap) (l : loc) (xs : list Todo) :
  extends h h' → read_array h l = Some xs → read_array h' l = Some xs.
Proof. rewrite !read_array_Some. intros He Hl. by apply He. Qed.

(** A snapshot is a state object together with the array it points to. *)
Lemma snapshot_Some (h : heap) (l : loc) (v : StateValue) :
  snapshot h l = Some v ↔
  ∃ st, read_state h l = Some st ∧ read_array h (todos st) = Some (v_todos v)
        ∧ error st = v_error v ∧ status st = v_status v.
Proof.
  unfold snapshot. split.
  - destruct (read_state h l) as [st|]; simpl; [|discriminate].
    destruct (read_array h (todos st)) as [xs|] eqn:Harr; simpl; [|discriminate].
    intros [= <-]. by exists st.
  - intros (st & -> & Harr & He & Hs); simpl. rewrite Harr; simpl.
    destruct v; simpl in *. by subst.
Qed.

Lemma snapshot_extends (h h' : heap) (l : loc) (v : StateValue) :
  extends h h' → snapshot h l = Some v → snapshot h' l = Some v.
Proof.
  rewrite !snapshot_Some. intros He (st & Hst & Harr & Hrest).
  exists st. eauto using read_state_extends, read_array_extends.
Qed.

(** Allocating a state object over an array that is already there. *)
Lemma snapshot_alloc (h : heap) (arr : loc) (xs : list Todo)
    (e : option string) (s : Status) :
  read_array h arr = Some xs →
  snapshot (alloc h (OState (mkState arr e s))).1 (alloc h (OState (mkState arr e s))).2
  = Some (mkValue xs e s).
Proof.
  intros Harr. apply snapshot_Some. exists (mkState arr e s). simpl.
  split; [by apply read_state_Some, alloc_fresh|].
  split; [|done]. eapply read_array_extends; [apply alloc_extends|done].
Qed.

End HeapFacts.

(** ** The reducer, handler by handler *)

Section ReducerFacts.

Implicit Types (now : Z) (h : heap) (s : loc) (v : StateValue).

(** The five [on] entries have five different types, so the order in
    which [createReducer] is given them does not matter. *)
Lemma handled_types_NoDup : NoDup handled_types.
Proof. apply (bool_decide_unpack _). vm_compute. exact I. Qed.

Lemma todoReducer_addTodo now h s c :
  todoReducer now h (Some s) (addTodo c) = on_addTodo now h s (addTodo c).
Proof. reflexivity. Qed.

Lemma todoReducer_removeTodo now h s i :
  todoReducer now h (Some s) (removeTodo i) = on_removeTodo now h s (removeTodo i).
Proof. reflexivity. Qed.

Lemma todoReducer_loadTodos now h s :
  todoReducer now h (Some s) loadTodos = on_loadTodos now h s loadTodos.
Proof. reflexivity. Qed.

Lemma todoReducer_loadTodosSuccess now h s ts :
  todoReducer now h (Some s) (loadTodosSuccess ts)
  = on_loadTodosSuccess now h s (loadTodosSuccess ts).
Proof. reflexivity. Qed.

Lemma todoReducer_loadTodosFailure now h s e :
  todoReducer now h (Some s) (loadTodosFailure e)
  = on_loadTodosFailure now h s (loadTodosFailure e).
Proof. reflexivity. Qed.

(** A reducer called without a state starts from [initialState]. *)
Lemma todoReducer_undefined now h a :
  todoReducer now h None a = todoReducer now h (Some initialState) a.
Proof. reflexivity. Qed.

(** Replacing the array: the handler allocates the new array, then the
    new state object over it. *)
Lemma alloc_array_state h s v (xs : list Todo) :
  snapshot h s = Some v →
  let h1 := (alloc h (OArray xs)).1 in
  let arr := (alloc h (OArray xs)).2 in
  let r := alloc h1 (OState (mkState arr (v_error v) (v_status v))) in
  extends h r.1 ∧ snapshot r.1 r.2 = Some (mkValue xs (v_error v) (v_status v)).
Proof.
  intros Hv h1 arr r. split.
  - eapply extends_trans; apply alloc_extends.
  - apply snapshot_alloc, read_array_Some, alloc_fresh.
Qed.

Lemma on_addTodo_spec now h s v c :
  snapshot h s = Some v →
  ∃ h' s', on_addTodo now h s (addTodo c) = Some (h', s')
    ∧ extends h h'
    ∧ snapshot h' s'
      = Some (mkValue (v_todos v ++ [mkTodo (pretty now) c]) (v_error v) (v_status v)).
Proof.
  intros Hv. pose proof Hv as Hv'.
  apply snapshot_Some in Hv' as (st & Hst & Harr & He & Hs).
  unfold on_addTodo; simpl. rewrite Hst; simpl. rewrite Harr; simpl.
  rewrite He, Hs. do 2 eexists. split; [reflexivity|].
  exact (alloc_array_state h s v _ Hv).
Qed.

Lemma on_removeTodo_spec now h s v i :
  snapshot h s = Some v →
  ∃ h' s', on_removeTodo now h s (removeTodo i) = Some (h', s')
    ∧ extends h h'
    ∧ snapshot h' s'
      = Some (mkValue (List.filter (fun todo => negb (String.eqb (id todo) i)) (v_todos v))
                      (v_error v) (v_status v)).
Proof.
  intros Hv. pose proof Hv as Hv'.
  apply snapshot_Some in Hv' as (st & Hst & Harr & He & Hs).
  unfold on_removeTodo; simpl. rewrite Hst; simpl. rewrite Harr; simpl.
  rewrite He, Hs. do 2 eexists. split; [reflexivity|].
  exact (alloc_array_state h s v _ Hv).
Qed.

(** The handlers that keep or alias an array allocate one object. *)
Lemma alloc_state_spec h (st' : TodoState) :
  ∃ h' s', alloc h (OState st') = (h', s')
    ∧ extends h h' ∧ read_state h' s' = Some st'.
Proof.
  exists (alloc h (OState st')).1, (alloc h (OState st')).2.
  split; [done|]. split; [apply alloc_extends|].
  apply read_state_Some, alloc_fresh.
Qed.

Lemma on_loadTodos_spec now h s st :
  read_state h s = Some st →
  ∃ h' s', on_loadTodos now h s loadTodos = Some (h', s')
    ∧ extends h h'
    ∧ read_state h' s' = Some (mkState (todos st) (error st) SLoading).
Proof.
  intros Hst. unfold on_loadTodos. rewrite Hst; simpl.
  destruct (alloc_state_spec h (mkState (todos st) (error st) SLoading))
    as (h' & s' & -> & Hrest).
  by exists h', s'.
Qed.

Lemma on_loadTodosSuccess_spec now h s st ts :
  read_state h s = Some st →
  ∃ h' s', on_loadTodosSuccess now h s (loadTodosSuccess ts) = Some (h', s')
    ∧ extends h h'
    ∧ read_state h' s' = Some (mkState ts None SSuccess).
Proof.
  intros Hst. unfold on_loadTodosSuccess; simpl. rewrite Hst; simpl.
  destruct (alloc_state_spec h (mkState ts None SSuccess)) as (h' & s' & -> & Hrest).
  by exists h', s'.
Qed.

Lemma on_loadTodosFailure_spec now h s st e :
  read_state h s = Some st →
  ∃ h' s', on_loadTodosFailure now h s (loadTodosFailure e) = Some (h', s')
    ∧ extends h h'
    ∧ read_state h' s' = Some (mkState (todos st) (Some e) SError).
Proof.
  intros Hst. unfold on_loadTodosFailure; simpl. rewrite Hst; simpl.
  destruct (alloc_state_spec h (mkState (todos st) (Some e) SError))
    as (h' & s' & -> & Hrest).
  by exists h', s'.
Qed.

(** Reading a state object and its array gives the snapshot. *)
Lemma snapshot_of_reads h s (st : TodoState) (xs : list Todo) :
  read_state h s = Some st → read_array h (todos st) = Some xs →
  snapshot h s = Some (mkValue xs (error st) (status st)).
Proof. intros Hst Harr. apply snapshot_Some. by exists st. Qed.

(** The code's filter, [todo.id !== id], read as a property of todos. *)
Lemma filter_id_neq (i : string) (xs : list Todo) :
  List.filter (fun todo => negb (String.eqb (id todo) i)) xs
  = filter (λ todo, id todo ≠ i) xs.
Proof.
  induction xs as [|x xs IH]; [done|]. simpl. rewrite filter_cons, IH.
  destruct (String.eqb_spec (id x) i) as [Heq|Hne]; simpl.
  - by rewrite decide_False by (intros Hn; by apply Hn).
  - by rewrite decide_True.
Qed.

Lemma filter_id_absent (i : string) (xs : list Todo) :
  (∀ todo, todo ∈ xs → id todo ≠ i) → filter (λ todo, id todo ≠ i) xs = xs.
Proof.
  induction xs as [|x xs IH]; intros Hall; [done|].
  rewrite filter_cons_True by (apply Hall; left).
  f_equal. apply IH. intros t Ht. apply Hall. by right.
Qed.

Lemma snapshot_heap0 h :
  extends heap0 h → snapshot h initialState = Some (mkValue [] None SPending).
Proof. intros He. by apply (snapshot_extends heap0). Qed.

End ReducerFacts.

(** ** Properties of [todoReducer] *)

Module TodoReducer.

Implicit Types (now : Z) (h : heap) (s : loc) (v : StateValue).

(** C2: on any state, [loadTodos] gives a state with status "loading";
    [loadTodosSuccess({todos: ts})] gives status "success", a null error
    and [ts] as the todos; [loadTodosFailure({error: e})] gives status
    "error", error [e] and the todos of the state before it (the very
    same array).  Each time the reducer returns a new object and leaves
    the old ones as they were. *)
Theorem load_transitions now h s v :
  snapshot h s = Some v →
  (∃ h' s', todoReducer now h (Some s) loadTodos = Some (h', s')
     ∧ extends h h'
     ∧ ∃ v', snapshot h' s' = Some v' ∧ status_literal (v_status v') = "loading")
  ∧ (∀ ts xs, read_array h ts = Some xs →
     ∃ h' s', todoReducer now h (Some s) (loadTodosSuccess ts) = Some (h', s')
       ∧ extends h h'
       ∧ (todos <$> read_state h' s') = Some ts
       ∧ ∃ v', snapshot h' s' = Some v'
           ∧ status_literal (v_status v') = "success"
           ∧ v_error v' = None
           ∧ v_todos v' = xs)
  ∧ (∀ e,
     ∃ h' s', todoReducer now h (Some s) (loadTodosFailure e) = Some (h', s')
       ∧ extends h h'
       ∧ (todos <$> read_state h' s') = (todos <$> read_state h s)
       ∧ ∃ v', snapshot h' s' = Some v'
           ∧ status_literal (v_status v') = "error"
           ∧ v_error v' = Some e
           ∧ v_todos v' = v_todos v).
Proof.
  intros Hv. pose proof Hv as Hv'.
  apply snapshot_Some in Hv' as (st & Hst & Harr & He & Hs).
  split; [|split].
  - rewrite todoReducer_loadTodos.
    destruct (on_loadTodos_spec now h s st Hst) as (h' & s' & Hrun & Hext & Hst').
    exists h', s'. split; [exact Hrun|]. split; [exact Hext|].
    exists (mkValue (v_todos v) (error st) SLoading). split; [|reflexivity].
    eapply (snapshot_of_reads _ _ (mkState (todos st) (error st) SLoading));
      [exact Hst'|].
    by apply (read_array_extends h).
  - intros ts xs Hts. rewrite todoReducer_loadTodosSuccess.
    destruct (on_loadTodosSuccess_spec now h s st ts Hst)
      as (h' & s' & Hrun & Hext & Hst').
    exists h', s'. split; [exact Hrun|]. split; [exact Hext|].
    split; [by rewrite Hst'|].
    exists (mkValue xs None SSuccess). split; [|done].
    eapply (snapshot_of_reads _ _ (mkState ts None SSuccess)); [exact Hst'|].
    by apply (read_array_extends h).
  - intros e. rewrite todoReducer_loadTodosFailure.
    destruct (on_loadTodosFailure_spec now h s st e Hst)
      as (h' & s' & Hrun & Hext & Hst').
    exists h', s'. split; [exact Hrun|]. split; [exact Hext|].
    split; [by rewrite Hst', Hst|].
    exists (mkValue (v_todos v) (Some e) SError). split; [|done].
    eapply (snapshot_of_reads _ _ (mkState (todos st) (Some e) SError)); [exact Hst'|].
    by apply (read_array_extends h).
Qed.

Lemma load_transitions_witness :
  let h := [OArray [mkTodo "1" "milk"]; OState (mkState 0 None SPending);
            OArray [mkTodo "7" "eggs"]] in
  (snapshot h 1 = Some (mkValue [mkTodo "1" "milk"] None SPending)
  ∧ ∃ h' s', todoReducer 5 h (Some 1) (loadTodosFailure "e") = Some (h', s')
      ∧ ∃ v', snapshot h' s' = Some v'
          ∧ v_error v' = Some "e" ∧ v_todos v' = [mkTodo "1" "milk"]).
Proof.
  intros h. split; [reflexivity|].
  destruct (load_transitions 5 h 1 _ eq_refl) as (_ & _ & Hfail).
  destruct (Hfail "e") as (h' & s' & Hrun & _ & _ & v' & Hv' & _ & He & Ht).
  exists h', s'. split; [exact Hrun|]. exists v'. auto.
Defined.

(** C3: [addTodo({content: "x"})] on [initialState] gives a state whose
    todos hold exactly one todo, with content "x" and a generated id,
    whose error is null and whose status is still "pending". *)
Theorem addTodo_on_initialState now h :
  extends heap0 h →
  snapshot h initialState = Some (mkValue [] None SPending)
  ∧ ∃ h' s' i, todoReducer now h (Some initialState) (addTodo "x") = Some (h', s')
      ∧ snapshot h' s' = Some (mkValue [mkTodo i "x"] None SPending).
Proof.
  intros He. pose proof (snapshot_heap0 h He) as Hv. split; [exact Hv|].
  rewrite todoReducer_addTodo.
  destruct (on_addTodo_spec now h initialState _ "x" Hv) as (h' & s' & Hrun & _ & Hv').
  exists h', s', (pretty now). by split.
Qed.

Lemma addTodo_on_initialState_witness :
  extends heap0 heap0
  ∧ ∃ h' s' i, todoReducer 1700000000000 heap0 (Some initialState) (addTodo "x")
               = Some (h', s')
      ∧ snapshot h' s' = Some (mkValue [mkTodo i "x"] None SPending).
Proof.
  split; [apply extends_refl|].
  exact (proj2 (addTodo_on_initialState 1700000000000 heap0 (extends_refl heap0))).
Defined.

(** C4: [removeTodo({id: "1"})] on a state whose todos are exactly one
    todo with id "1" gives a state with no todos. *)
Theorem removeTodo_only_todo now h s v c :
  snapshot h s = Some v →
  v_todos v = [mkTodo "1" c] →
  ∃ h' s' v', todoReducer now h (Some s) (removeTodo "1") = Some (h', s')
    ∧ snapshot h' s' = Some v'
    ∧ v_todos v' = [].
Proof.
  intros Hv Ht. rewrite todoReducer_removeTodo.
  destruct (on_removeTodo_spec now h s v "1" Hv) as (h' & s' & Hrun & _ & Hv').
  exists h', s'. eexists. split; [exact Hrun|]. split; [exact Hv'|].
  simpl. by rewrite Ht.
Qed.

Lemma removeTodo_only_todo_witness :
  let h := [OArray [mkTodo "1" "milk"]; OState (mkState 0 (Some "down") SError)] in
  (snapshot h 1 = Some (mkValue [mkTodo "1" "milk"] (Some "down") SError)
  ∧ ∃ h' s' v', todoReducer 0 h (Some 1) (removeTodo "1") = Some (h', s')
      ∧ snapshot h' s' = Some v'
      ∧ v_todos v' = []).
Proof.
  intros h. split; [reflexivity|].
  exact (removeTodo_only_todo 0 h 1 _ "milk" eq_refl eq_refl).
Defined.

(** C5: an action whose type is none of the five handled ones leaves the
    state alone: the reducer returns the reference it was given and
    allocates nothing. *)
Theorem unhandled_action_same_reference now h s (a : Action) :
  type a ∉ handled_types →
  todoReducer now h (Some s) a = Some (h, s).
Proof.
  unfold handled_types. rewrite !not_elem_of_cons.
  intros (H1 & H2 & H3 & H4 & H5 & _).
  apply String.eqb_neq in H1, H2, H3, H4, H5.
  unfold todoReducer, createReducer, on. simpl.
  by rewrite H1, H2, H3, H4, H5.
Qed.

Lemma unhandled_action_same_reference_witness :
  let a := mkAction "[Scoreboard Page] Home Score" PNone in
  ((type a ∉ handled_types)
  ∧ todoReducer 3 heap0 (Some initialState) a = Some (heap0, initialState)).
Proof.
  intros a.
  assert (Hnot : type a ∉ handled_types).
  { apply (bool_decide_unpack _). vm_compute. exact I. }
  split; [exact Hnot|].
  exact (unhandled_action_same_reference 3 heap0 initialState a Hnot).
Defined.

(** C9: on every state, [addTodo({content: c})] gives a state whose todos
    are the old todos, all of them and in their order, followed by one
    new todo with content [c]; error and status are those of the old
    state. *)
Theorem addTodo_appends now h s v c :
  snapshot h s = Some v →
  ∃ h' s' i, todoReducer now h (Some s) (addTodo c) = Some (h', s')
    ∧ snapshot h' s' = Some (mkValue (v_todos v ++ [mkTodo i c]) (v_error v) (v_status v)).
Proof.
  intros Hv. rewrite todoReducer_addTodo.
  destruct (on_addTodo_spec now h s v c Hv) as (h' & s' & Hrun & _ & Hv').
  by exists h', s', (pretty now).
Qed.

Lemma addTodo_appends_witness :
  let h := [OArray [mkTodo "1" "milk"; mkTodo "2" "eggs"];
            OState (mkState 0 (Some "down") SError)] in
  (snapshot h 1 = Some (mkValue [mkTodo "1" "milk"; mkTodo "2" "eggs"] (Some "down") SError)
  ∧ ∃ h' s' i, todoReducer 3 h (Some 1) (addTodo "tea") = Some (h', s')
      ∧ snapshot h' s'
        = Some (mkValue ([mkTodo "1" "milk"; mkTodo "2" "eggs"] ++ [mkTodo i "tea"])
                        (Some "down") SError)).
Proof.
  intros h. split; [reflexivity|].
  exact (addTodo_appends 3 h 1 _ "tea" eq_refl).
Defined.

(** C10: on every state, [removeTodo({id: i})] leaves error and status as
    they were; the todos become, in their order, exactly the old todos
    whose id is not [i], so that an id no todo has leaves the todos equal
    in value too. *)
Theorem removeTodo_frame now h s v (i : string) :
  snapshot h s = Some v →
  ∃ h' s', todoReducer now h (Some s) (removeTodo i) = Some (h', s')
    ∧ snapshot h' s'
      = Some (mkValue (filter (λ todo, id todo ≠ i) (v_todos v)) (v_error v) (v_status v))
    ∧ ((∀ todo, todo ∈ v_todos v → id todo ≠ i) → snapshot h' s' = Some v).
Proof.
  intros Hv. rewrite todoReducer_removeTodo.
  destruct (on_removeTodo_spec now h s v i Hv) as (h' & s' & Hrun & _ & Hv').
  rewrite filter_id_neq in Hv'.
  exists h', s'. split; [exact Hrun|]. split; [exact Hv'|].
  intros Hall. rewrite Hv'. f_equal.
  rewrite (filter_id_absent i (v_todos v) Hall). by destruct v.
Qed.

Lemma removeTodo_frame_witness :
  let h := [OArray [mkTodo "1" "milk"; mkTodo "2" "eggs"; mkTodo "1" "tea"];
            OState (mkState 0 (Some "down") SLoading)] in
  (snapshot h 1
  = Some (mkValue [mkTodo "1" "milk"; mkTodo "2" "eggs"; mkTodo "1" "tea"]
                  (Some "down") SLoading)
  ∧ ∃ h' s', todoReducer 0 h (Some 1) (removeTodo "1") = Some (h', s')
      ∧ snapshot h' s' = Some (mkValue [mkTodo "2" "eggs"] (Some "down") SLoading)).
Proof.
  intros h. split; [reflexivity|].
  destruct (removeTodo_frame 0 h 1 _ "1" eq_refl) as (h' & s' & Hrun & Hv' & _).
  exists h', s'. split; [exact Hrun|]. exact Hv'.
Defined.

(** The clock is the only thing besides state and action that the reducer
    reads, and only the [addTodo] handler reads it. *)
Lemma todoReducer_clock_free now now' h (state : option loc) (a : Action) :
  type a ≠ addTodo_type →
  todoReducer now h state a = todoReducer now' h state a.
Proof.
  intros Hne. apply String.eqb_neq in Hne.
  unfold todoReducer, createReducer, on. simpl. rewrite Hne.
  destruct (String.eqb (type a) removeTodo_type); [reflexivity|].
  destruct (String.eqb (type a) loadTodos_type); [reflexivity|].
  destruct (String.eqb (type a) loadTodosSuccess_type); [reflexivity|].
  destruct (String.eqb (type a) loadTodosFailure_type); reflexivity.
Qed.

Lemma replay_clock_free (clock clock' : nat → Z) (actions : list Action) :
  Forall (λ a, type a ≠ addTodo_type) actions →
  ∀ k k' h s, replay clock k h s actions = replay clock' k' h s actions.
Proof.
  induction 1 as [|a rest Ha _ IH]; intros k k' h s; [reflexivity|].
  simpl. rewrite (todoReducer_clock_free (clock k) (clock' k') h (Some s) a Ha).
  destruct (todoReducer (clock' k') h (Some s) a) as [[h' s']|]; simpl; [|reflexivity].
  apply IH.
Qed.

(** C1: replaying one and the same sequence of actions from one and the
    same initial state does not always end in deep-equal states.  The
    [addTodo] handler takes the id of the new todo from [Date.now()], so
    two replays of [addTodo({content: "x"})] that run a millisecond apart
    end in todos with different ids. *)
Theorem replay_depends_on_clock :
  replay_value (λ _, 1700000000000%Z) [addTodo "x"]
  = Some (mkValue [mkTodo "1700000000000" "x"] None SPending)
  ∧ replay_value (λ _, 1700000000001%Z) [addTodo "x"]
    = Some (mkValue [mkTodo "1700000000001" "x"] None SPending)
  ∧ replay_value (λ _, 1700000000000%Z) [addTodo "x"]
    ≠ replay_value (λ _, 1700000000001%Z) [addTodo "x"].
Proof.
  split; [|split]; [vm_compute; reflexivity ..|].
  vm_compute. discriminate.
Qed.

End TodoReducer.

(** ** Memoization of selectors *)

Module SelectorFacts.

Import Selector.

Lemma same_refs_spec (xs ys : list Value) : same_refs xs ys = true ↔ xs = ys.
Proof.
  revert ys. induction xs as [|x xs IH]; intros [|y ys]; simpl; try done.
  unfold strict_eq. rewrite andb_true_iff, bool_decide_eq_true, IH.
  split; [intros [-> ->]; done|intros [= -> ->]; done].
Qed.

Lemma same_refs_refl (xs : list Value) : same_refs xs xs = true.
Proof. by apply same_refs_spec. Qed.

Lemma same_refs_neq (xs ys : list Value) : xs ≠ ys → same_refs xs ys = false.
Proof.
  intros Hne. destruct (same_refs xs ys) eqn:E; [|done].
  by apply same_refs_spec in E.
Qed.

Section Engine.

Context {State Out : Type}.
Variable inputs : list (@InputSelector State).
Variable projector : @Projector Out.

Local Abbreviation selector := (createSelector inputs projector).

(** The inputs are what the memo cell holds: no projector call. *)
Lemma createSelector_hit (m : Memo Out) h state args out :
  last m = Some (args, out) → results inputs h state = args →
  selector m h state = (m, out).
Proof.
  intros Hm Hr. unfold createSelector. rewrite Hm, Hr.
  by rewrite same_refs_refl.
Qed.

(** The memo cell holds nothing, or something else: one projector call. *)
Lemma createSelector_miss (m : Memo Out) h state :
  (∀ args out, last m = Some (args, out) → results inputs h state ≠ args) →
  selector m h state = recompute projector m h (results inputs h state).
Proof.
  intros Hm. unfold createSelector.
  destruct (last m) as [[args out]|]; [|done].
  rewrite same_refs_neq; [done|]. intros ->. by eapply Hm.
Qed.

(** Invocations whose inputs all match the memo cell leave it alone. *)
Lemma select_all_hits (m : Memo Out) (runs : list (heap * State)) args out :
  last m = Some (args, out) →
  Forall (λ r, results inputs r.1 r.2 = args) runs →
  select_all selector m runs = (m, replicate (length runs) out).
Proof.
  intros Hm. induction 1 as [|[h state] runs Hr _ IH]; [done|].
  simpl in *. by rewrite (createSelector_hit m h state args out Hm Hr), IH.
Qed.

(** A first invocation with new inputs, followed by any number with
    the same: the projector runs once, on the first. *)
Lemma select_all_one_miss (m : Memo Out) h0 state0 (runs : list (heap * State)) args :
  (∀ args' out, last m = Some (args', out) → args ≠ args') →
  Forall (λ r, results inputs r.1 r.2 = args) ((h0, state0) :: runs) →
  select_all selector m ((h0, state0) :: runs)
  = (mkMemo (Some (args, projector h0 args)) (S (calls m)),
     replicate (S (length runs)) (projector h0 args)).
Proof.
  intros Hm Hall. apply Forall_cons in Hall as [Hr Hrest]. simpl in Hr.
  simpl. rewrite createSelector_miss by (rewrite Hr; exact Hm).
  unfold recompute. rewrite Hr.
  by rewrite (select_all_hits _ runs args (projector h0 args)).
Qed.

End Engine.

(** C6: for a selector built with [createSelector], invocations in which
    every input selector returns the same references as in the one
    before run the projector once, on the first of them, and all return
    the output memoized then; an invocation in which an input's result
    is another reference runs the projector once more, and the
    invocations that follow with these results do not run it again. *)
Theorem projector_runs_once_per_change {State Out : Type}
    (inputs : list (@InputSelector State)) (projector : @Projector Out) :
  (∀ h0 state0 runs args,
     Forall (λ r, results inputs r.1 r.2 = args) ((h0, state0) :: runs) →
     let r := select_all (createSelector inputs projector) fresh_memo
                         ((h0, state0) :: runs) in
     calls r.1 = 1
     ∧ r.2 = replicate (S (length runs)) (projector h0 args))
  ∧ (∀ (m : Memo Out) old out h0 state0 runs args,
     last m = Some (old, out) →
     args ≠ old →
     Forall (λ r, results inputs r.1 r.2 = args) ((h0, state0) :: runs) →
     let r := select_all (createSelector inputs projector) m
                         ((h0, state0) :: runs) in
     calls r.1 = S (calls m)
     ∧ r.2 = replicate (S (length runs)) (projector h0 args)).
Proof.
  split.
  - intros h0 state0 runs args Hall.
    rewrite (select_all_one_miss inputs projector fresh_memo h0 state0 runs args);
      [done| |done].
    intros args' out. discriminate.
  - intros m old out h0 state0 runs args Hm Hne Hall.
    rewrite (select_all_one_miss inputs projector m h0 state0 runs args);
      [done| |done].
    intros args' out'. rewrite Hm. by intros [= <- <-].
Qed.

(** [selectAllTodos] on a heap with two state objects over one array:
    three invocations on the first state run the projector once, a fourth
    on the second state runs it a second time. *)
Lemma projector_runs_once_per_change_witness :
  let h := [OArray [mkTodo "1" "milk"]; OState (mkState 0 None SPending);
            OState (mkState 0 None SLoading)] in
  let same := [(h, mkAppState 1); (h, mkAppState 1); (h, mkAppState 1)] in
  let r := select_all selectAllTodos fresh_memo same in
  let r' := select_all selectAllTodos r.1 [(h, mkAppState 2)] in
  (Forall (λ x, results [selectTodos] x.1 x.2 = [VRef 1]) same
   ∧ calls r.1 = 1 ∧ r.2 = [Some 0; Some 0; Some 0]
   ∧ calls r'.1 = 2 ∧ r'.2 = [Some 0]).
Proof.
  intros h same r r'.
  pose proof (projector_runs_once_per_change [selectTodos] todos_projector)
    as [Hfresh Hchange].
  assert (Hsame : Forall (λ x, results [selectTodos] x.1 x.2 = [VRef 1]) same).
  { repeat constructor. }
  destruct (Hfresh h (mkAppState 1) [(h, mkAppState 1); (h, mkAppState 1)] [VRef 1] Hsame)
    as [Hcalls Houts].
  split; [exact Hsame|]. split; [exact Hcalls|]. split; [exact Houts|].
  destruct (Hchange r.1 [VRef 1] (Some 0) h (mkAppState 2) [] [VRef 2])
    as [Hcalls' Houts'].
  - reflexivity.
  - discriminate.
  - repeat constructor.
  - split; [exact Hcalls'|exact Houts'].
Defined.

End SelectorFacts.

(** ** The dispatch loop *)

Module StoreFacts.

Import Store.

Section Core.

Context {Slice Action ObsState : Type}.

Implicit Types (st : Store Slice Action ObsState) (a : Action)
  (s : State Slice) (evs : list (Event Slice Action)) (q : list Action)
  (regs : list (Registration Slice Action)).

(** *** Reading logs *)

Lemma dispatched_app evs1 evs2 :
  dispatched (evs1 ++ evs2) = dispatched evs1 ++ dispatched evs2.
Proof. apply omap_app. Qed.

Lemma reduced_app evs1 evs2 :
  reduced (evs1 ++ evs2) = reduced evs1 ++ reduced evs2.
Proof. apply omap_app. Qed.

Lemma transitions_app evs1 evs2 :
  transitions (evs1 ++ evs2) = transitions evs1 ++ transitions evs2.
Proof. apply List.filter_app. Qed.

Lemma fifo_app q evs1 q1 evs2 q2 :
  fifo q evs1 q1 → fifo q1 evs2 q2 → fifo q (evs1 ++ evs2) q2.
Proof. induction 1; intros H2; simpl; [done|constructor; auto ..]. Qed.

(** Calls of [dispatch] and notifications only add to the back. *)
Lemma fifo_no_reduce evs q :
  reduced evs = [] → fifo q evs (q ++ dispatched evs).
Proof.
  revert q. induction evs as [|e evs IH]; intros q Hr.
  - rewrite app_nil_r. constructor.
  - destruct e; simpl in *; try discriminate.
    + constructor.
      replace (q ++ a :: dispatched evs) with ((q ++ [a]) ++ dispatched evs)
        by (by rewrite <- app_assoc).
      by apply IH.
    + constructor. by apply IH.
Qed.

(** *** A slice reducer that throws *)



(** *** Queueing *)

Lemma enqueue_all st (acts : list Action) :
  let st' := foldl enqueue st acts in
  registry st' = registry st ∧ current st' = current st
  ∧ subscribers st' = subscribers st ∧ dispatching st' = dispatching st
  ∧ queue st' = queue st ++ acts
  ∧ log st' = log st ++ map EDispatch acts.
Proof.
  revert st. induction acts as [|a acts IH]; intros st; simpl.
  - by rewrite !app_nil_r.
  - destruct (IH (enqueue st a)) as (Hr & Hc & Hs & Hd & Hq & Hl).
    rewrite Hr, Hc, Hs, Hd, Hq, Hl. simpl.
    by rewrite <- !app_assoc.
Qed.

Lemma dispatched_map_EDispatch (acts : list Action) :
  dispatched (map (@EDispatch Slice Action) acts) = acts.
Proof. induction acts as [|a acts IH]; simpl; [done|]. by f_equal. Qed.

Lemma reduced_map_EDispatch (acts : list Action) :
  reduced (map (@EDispatch Slice Action) acts) = [].
Proof. induction acts as [|a acts IH]; simpl; done. Qed.

Lemma transitions_map_EDispatch (acts : list Action) :
  transitions (map (@EDispatch Slice Action) acts) = [].
Proof. induction acts as [|a acts IH]; simpl; done. Qed.

(** *** One notification round *)

Lemma notify_spec (subs : list (Observer Slice Action ObsState)) :
  ∀ i s st subs' st',
  notify i subs s st = (subs', st') →
  ∃ evs,
    log st' = log st ++ evs
    ∧ transitions evs = map (λ j, ENotify j s) (seq i (length subs))
    ∧ reduced evs = []
    ∧ queue st' = queue st ++ dispatched evs
    ∧ current st' = current st
    ∧ registry st' = registry st
    ∧ dispatching st' = dispatching st
    ∧ length subs' = length subs.
Proof.
  induction subs as [|o subs IH]; intros i s st subs' st' Hn; simpl in Hn.
  - injection Hn as <- <-. exists []. by rewrite !app_nil_r.
  - destruct (react o (memory o) s) as [mem acts].
    destruct (notify (S i) subs s _) as [rest' st2] eqn:Hrest.
    injection Hn as <- <-.
    apply IH in Hrest as (evs & Hl & Ht & Hr & Hq & Hc & Hg & Hd & Hlen).
    destruct (enqueue_all (record (ENotify i s) st) acts)
      as (Hg1 & Hc1 & _ & Hd1 & Hq1 & Hl1).
    exists (ENotify i s :: map EDispatch acts ++ evs).
    rewrite Hl, Hl1, Hq, Hq1, Hc, Hc1, Hg, Hg1, Hd, Hd1. simpl.
    rewrite transitions_app, transitions_map_EDispatch, Ht.
    rewrite reduced_app, reduced_map_EDispatch, Hr.
    rewrite dispatched_app, dispatched_map_EDispatch, Hlen.
    by rewrite <- !app_assoc.
Qed.

(** *** The loop *)

Lemma drain_idle fuel st :
  queue st = [] →
  drain fuel st
  = (mkStore (registry st) (current st) (subscribers st) [] false (log st), Done).
Proof. intros Hq. destruct fuel; simpl; by rewrite Hq. Qed.

Lemma drain_spec fuel :
  ∀ st, ∃ evs,
    log (drain fuel st).1 = log st ++ evs
    ∧ registry (drain fuel st).1 = registry st
    ∧ length (subscribers (drain fuel st).1) = length (subscribers st)
    ∧ sequential (registry st) (length (subscribers st)) (current st)
        (transitions evs) (current (drain fuel st).1)
    ∧ fifo (queue st) evs (queue (drain fuel st).1)
    ∧ ((drain fuel st).2 = Done →
       queue (drain fuel st).1 = [] ∧ dispatching (drain fuel st).1 = false).
Proof.
  induction fuel as [|fuel IH]; intros st.
  - destruct (queue st) as [|a q] eqn:Hq.
    + rewrite (drain_idle 0 st Hq). exists []. simpl. rewrite app_nil_r.
      repeat split; constructor.
    + exists []. simpl. rewrite Hq. simpl. rewrite app_nil_r, Hq.
      repeat split; (constructor || discriminate).
  - destruct (queue st) as [|a q] eqn:Hq.
    + rewrite (drain_idle (S fuel) st Hq). exists []. simpl. rewrite app_nil_r.
      repeat split; constructor.
    + simpl. rewrite Hq.
      destruct (composeRoot (registry st) (current st) a) as [s'|] eqn:Hroot.
      * destruct (notify 0 (subscribers st) s' _) as [subs' st2] eqn:Hn.
        apply notify_spec in Hn
          as (evs_n & Hl & Ht & Hr & Hqn & Hc & Hg & Hd & Hlen).
        simpl in Hl, Hqn, Hc, Hg, Hd.
        set (st3 := mkStore (registry st2) (current st2) subs' (queue st2)
                            (dispatching st2) (log st2)).
        destruct (IH st3) as (evs_r & Hl' & Hg' & Hlen' & Hseq & Hfifo & Hdone).
        change (log st3) with (log st2) in Hl'.
        change (registry st3) with (registry st2) in Hg', Hseq.
        change (subscribers st3) with subs' in Hlen', Hseq.
        change (current st3) with (current st2) in Hseq.
        change (queue st3) with (queue st2) in Hfifo.
        exists (EReduce a (current st) s' :: evs_n ++ evs_r).
        rewrite Hl', Hl, Hg', Hg, Hlen', Hlen.
        split; [by rewrite <- !app_assoc|]. split; [done|]. split; [done|].
        split; [|split; [|exact Hdone]].
        -- simpl. rewrite transitions_app, Ht.
           rewrite Hg, Hlen, Hc in Hseq. by apply seq_round.
        -- apply fifo_reduce. eapply fifo_app; [by apply fifo_no_reduce|].
           by rewrite <- Hqn.
      * exists [EFault a (current st)]. simpl.
        repeat split; try discriminate; repeat constructor. done.
Qed.

(** *** Observers that never dispatch *)

Lemma notify_quiet (subs : list (Observer Slice Action ObsState)) :
  Forall quiet subs →
  ∀ i s st, queue (notify i subs s st).2 = queue st.
Proof.
  induction 1 as [|o subs Ho _ IH]; intros i s st; simpl; [done|].
  specialize (Ho (memory o) s).
  destruct (react o (memory o) s) as [mem acts]. simpl in Ho. subst acts.
  specialize (IH (S i) s (foldl enqueue (record (ENotify i s) st) [])).
  destruct (notify (S i) subs s _) as [rest' st2]. simpl in *. exact IH.
Qed.

(** With such observers a dispatch on an idle store returns after one
    reducer run. *)
Lemma dispatch_quiet_returns fuel st a :
  dispatching st = false → queue st = [] →
  Forall quiet (subscribers st) →
  (dispatch (S fuel) st a).2 = Done ∨ (dispatch (S fuel) st a).2 = Failed ReducerFault.
Proof.
  intros Hd Hq Hquiet. unfold dispatch. rewrite Hd. simpl. rewrite Hq. simpl.
  destruct (composeRoot (registry st) (current st) a) as [s'|]; [|by right].
  pose proof (notify_quiet (subscribers st) Hquiet 0 s'
    (record (EReduce a (current st) s')
       (mkStore (registry st) s' (subscribers st) [] true
                (log st ++ [EDispatch a])))) as Hn.
  destruct (notify 0 (subscribers st) s' _) as [subs' st2].
  simpl in Hn. left. by rewrite drain_idle.
Qed.


(** *** Reducer runs that throw, wherever they are in the loop *)






(** C8: a call of [dispatch] made while a dispatch is in flight only
    puts its action at the back of the queue.  The dispatch in flight
    takes the queued actions from the front, one at a time, and each
    reducer run starts from the state the run before it ended in and is
    followed by its whole notification round before the next run
    starts: the state transitions form one sequence, in the order of
    the calls. *)
Theorem dispatch_sequential fuel st a :
  (dispatching st = true →
     dispatch fuel st a = (enqueue st a, Done)
     ∧ current (enqueue st a) = current st
     ∧ queue (enqueue st a) = queue st ++ [a]
     ∧ log (enqueue st a) = log st ++ [EDispatch a])
  ∧ (dispatching st = false → queue st = [] →
     ∃ evs,
       log (dispatch fuel st a).1 = log st ++ evs
       ∧ sequential (registry st) (length (subscribers st)) (current st)
           (transitions evs) (current (dispatch fuel st a).1)
       ∧ fifo [] evs (queue (dispatch fuel st a).1)
       ∧ ((dispatch fuel st a).2 = Done →
          queue (dispatch fuel st a).1 = []
          ∧ dispatching (dispatch fuel st a).1 = false)).
Proof.
  split.
  - intros Hd. unfold dispatch. by rewrite Hd.
  - intros Hd Hq. unfold dispatch. rewrite Hd.
    set (st1 := enqueue _ a).
    destruct (drain_spec fuel st1) as (evs & Hl & _ & _ & Hseq & Hfifo & Hdone).
    exists (EDispatch a :: evs).
    split; [|split; [|split]].
    + rewrite Hl. simpl. by rewrite <- app_assoc.
    + exact Hseq.
    + constructor. simpl in Hfifo. by rewrite Hq in Hfifo.
    + exact Hdone.
Qed.

End Core.

End StoreFacts.

(** ** The store on the todo slice *)

Module AppFacts.

Import Store App StoreFacts.



(** [loadOnce] dispatches [loadTodos] while it is notified of the
    [addTodo]: the second reducer run comes after both observers have
    seen the state of the first. *)
Lemma dispatch_sequential_witness :
  let st := idle_store 7 fresh_state [loadOnce; listView] in
  let res := dispatch 3 st (addTodo "x") in
  (res.2 = Done
   ∧ dispatched (log res.1) = [addTodo "x"; loadTodos]
   ∧ reduced (log res.1) = [addTodo "x"; loadTodos]
   ∧ ∃ evs,
       log res.1 = log st ++ evs
       ∧ sequential (registry st) 2 (current st) (transitions evs) (current res.1)
       ∧ fifo [] evs (queue res.1)).
Proof.
  intros st res.
  split; [vm_compute; reflexivity|].
  split; [vm_compute; reflexivity|].
  split; [vm_compute; reflexivity|].
  destruct (proj2 (dispatch_sequential 3 st (addTodo "x")) eq_refl eq_refl)
    as (evs & Hlog & Hseq & Hfifo & _).
  exists evs. split; [exact Hlog|]. split; [exact Hseq|exact Hfifo].
Defined.

End AppFacts.

(** ** The reducer over whole runs *)

Module ReducerRuns.

Import Values.

Implicit Types (now : Z) (h : heap) (s : loc) (v : StateValue) (a : Action).

(** *** What every run of a handler does to the heap *)

Lemma extends_app h (os : list Obj) : extends h (h ++ os).
Proof. intros l o Hl. by apply lookup_app_l_Some. Qed.

Ltac handler_inv :=
  intros now h s a h' s'; cbv beta delta [on_addTodo on_removeTodo on_loadTodos
    on_loadTodosSuccess on_loadTodosFailure];
  repeat match goal with
  | |- context [props a] => destruct (props a); try discriminate
  | |- context [read_state h s] =>
      destruct (read_state h s) as [st|]; simpl; try discriminate
  | st : TodoState |- context [read_array h (todos ?x)] =>
      destruct (read_array h (todos x)) as [old|]; simpl; try discriminate
  end;
  intros Hrun; injection Hrun as <- <-;
  (split; [rewrite <- ?app_assoc; apply extends_app|]);
  (split; [rewrite ?length_app; simpl; lia|]);
  eexists; apply read_state_Some;
  apply list_lookup_middle; rewrite ?length_app; simpl; lia.

Lemma on_addTodo_allocates : allocates on_addTodo.
Proof. handler_inv. Qed.

Lemma on_removeTodo_allocates : allocates on_removeTodo.
Proof. handler_inv. Qed.

Lemma on_loadTodos_allocates : allocates on_loadTodos.
Proof. handler_inv. Qed.

Lemma on_loadTodosSuccess_allocates : allocates on_loadTodosSuccess.
Proof. handler_inv. Qed.

Lemma on_loadTodosFailure_allocates : allocates on_loadTodosFailure.
Proof. handler_inv. Qed.

(** The reducer either runs one of the five handlers or hands the state
    back. *)
Lemma todoReducer_route now h (state : option loc) a :
  ((type a ∈ handled_types)
   ∧ ∃ fn, allocates fn
       ∧ todoReducer now h state a = fn now h (default initialState state) a)
  ∨ ((type a ∉ handled_types)
     ∧ todoReducer now h state a = Some (h, default initialState state)).
Proof.
  unfold todoReducer, createReducer, on, handled_types. simpl.
  destruct (String.eqb_spec (type a) addTodo_type) as [->|H1].
  { left. split; [set_solver|]. eauto using on_addTodo_allocates. }
  destruct (String.eqb_spec (type a) removeTodo_type) as [->|H2].
  { left. split; [set_solver|]. eauto using on_removeTodo_allocates. }
  destruct (String.eqb_spec (type a) loadTodos_type) as [->|H3].
  { left. split; [set_solver|]. eauto using on_loadTodos_allocates. }
  destruct (String.eqb_spec (type a) loadTodosSuccess_type) as [->|H4].
  { left. split; [set_solver|]. eauto using on_loadTodosSuccess_allocates. }
  destruct (String.eqb_spec (type a) loadTodosFailure_type) as [->|H5].
  { left. split; [set_solver|]. eauto using on_loadTodosFailure_allocates. }
  right. split; [|done].
  rewrite !not_elem_of_cons. split_and!; try done. apply not_elem_of_nil.
Qed.

Lemma todoReducer_extends now h (state : option loc) a h' s' :
  todoReducer now h state a = Some (h', s') → extends h h'.
Proof.
  destruct (todoReducer_route now h state a) as [(_ & fn & Hfn & ->)|(_ & ->)].
  - intros Hrun. by apply Hfn in Hrun as (? & _).
  - intros [= <- <-]. apply extends_refl.
Qed.

Lemma replay_extends (clock : nat → Z) (actions : list Action) :
  ∀ k h s h' s', replay clock k h s actions = Some (h', s') → extends h h'.
Proof.
  induction actions as [|a rest IH]; intros k h s h' s'; simpl.
  - intros [= <- <-]. apply extends_refl.
  - destruct (todoReducer (clock k) h (Some s) a) as [[h1 s1]|] eqn:Hstep;
      simpl; [|discriminate].
    intros Hrest. eapply extends_trans.
    + by eapply todoReducer_extends.
    + by eapply IH.
Qed.

(** *** The reducer on values *)

Lemma typed_extends h h' a : extends h h' → typed h a → typed h' a.
Proof.
  intros He [c|i| |ts xs Hts|e|a' Hn]; try by constructor.
  econstructor. by eapply read_array_extends.
Qed.

Lemma next_value_other now h v a :
  type a ∉ handled_types → next_value now h v a = Some v.
Proof.
  unfold handled_types. rewrite !not_elem_of_cons.
  intros (H1 & H2 & H3 & H4 & H5 & _).
  apply String.eqb_neq in H1, H2, H3, H4, H5.
  unfold next_value. by rewrite H1, H2, H3, H4, H5.
Qed.

Lemma next_value_extends now h h' v a :
  extends h h' → typed h a → next_value now h' v a = next_value now h v a.
Proof.
  intros He [c|i| |ts xs Hts|e|a' Hn]; try reflexivity.
  - unfold next_value; simpl.
    by rewrite Hts, (read_array_extends h h' ts xs He Hts).
  - by rewrite !next_value_other.
Qed.

Lemma todoReducer_other now h s a :
  type a ∉ handled_types → todoReducer now h (Some s) a = Some (h, s).
Proof.
  intros Hn.
  destruct (todoReducer_route now h (Some s) a) as [(Hin & _)|(_ & ->)]; done.
Qed.

(** One reducer run on a typed action returns, and the value of what it
    returns is [next_value] of the value it was given. *)
Lemma step_simulation now h s v a :
  snapshot h s = Some v → typed h a →
  ∃ h' s' v', todoReducer now h (Some s) a = Some (h', s')
    ∧ extends h h'
    ∧ snapshot h' s' = Some v'
    ∧ next_value now h v a = Some v'.
Proof.
  intros Hv Ht. pose proof Hv as Hv'.
  apply snapshot_Some in Hv' as (st & Hst & Harr & He & Hs).
  destruct Ht as [c|i| |ts xs Hts|e|a' Hn].
  - rewrite todoReducer_addTodo.
    destruct (on_addTodo_spec now h s v c Hv) as (h' & s' & -> & Hext & Hv1).
    by exists h', s', (mkValue (v_todos v ++ [mkTodo (pretty now) c]) (v_error v) (v_status v)).
  - rewrite todoReducer_removeTodo.
    destruct (on_removeTodo_spec now h s v i Hv) as (h' & s' & -> & Hext & Hv1).
    eexists h', s', _. split; [done|]. split; [done|]. split; [exact Hv1|done].
  - rewrite todoReducer_loadTodos.
    destruct (on_loadTodos_spec now h s st Hst) as (h' & s' & -> & Hext & Hst').
    exists h', s', (mkValue (v_todos v) (v_error v) SLoading).
    split; [done|]. split; [done|]. split; [|done]. rewrite <- He.
    apply (snapshot_of_reads h' s' (mkState (todos st) (error st) SLoading));
      [done|]. by apply (read_array_extends h).
  - rewrite todoReducer_loadTodosSuccess.
    destruct (on_loadTodosSuccess_spec now h s st ts Hst) as (h' & s' & -> & Hext & Hst').
    exists h', s', (mkValue xs None SSuccess).
    split; [done|]. split; [done|]. split.
    + apply (snapshot_of_reads h' s' (mkState ts None SSuccess)); [done|].
      by apply (read_array_extends h).
    + unfold next_value; simpl. by rewrite Hts.
  - rewrite todoReducer_loadTodosFailure.
    destruct (on_loadTodosFailure_spec now h s st e Hst) as (h' & s' & -> & Hext & Hst').
    exists h', s', (mkValue (v_todos v) (Some e) SError).
    split; [done|]. split; [done|]. split; [|done].
    apply (snapshot_of_reads h' s' (mkState (todos st) (Some e) SError)); [done|].
    by apply (read_array_extends h).
  - rewrite (todoReducer_other now h s a' Hn). exists h, s, v.
    split; [done|]. split; [apply extends_refl|]. split; [done|].
    by apply next_value_other.
Qed.

Lemma step_value_defined now h v a :
  typed h a → ∃ v', next_value now h v a = Some v'.
Proof.
  intros [c|i| |ts xs Hts|e|a' Hn]; try (eexists; reflexivity).
  - exists (mkValue xs None SSuccess). unfold next_value; simpl. by rewrite Hts.
  - exists v. by apply next_value_other.
Qed.

Lemma fold_value_extends (clock : nat → Z) h h' (actions : list Action) :
  extends h h' → Forall (typed h) actions →
  ∀ k v, fold_value clock k h' v actions = fold_value clock k h v actions.
Proof.
  intros He. induction 1 as [|a rest Ha _ IH]; intros k v; simpl; [done|].
  rewrite (next_value_extends _ h h' v a He Ha).
  destruct (next_value (clock k) h v a); simpl; [apply IH|done].
Qed.

(** A replay of typed actions returns, and the value it ends in is the
    fold of [next_value] over the actions. *)
Lemma replay_simulation (clock : nat → Z) (actions : list Action) :
  ∀ k h s v,
  snapshot h s = Some v → Forall (typed h) actions →
  ∃ h' s' v', replay clock k h s actions = Some (h', s')
    ∧ extends h h'
    ∧ snapshot h' s' = Some v'
    ∧ fold_value clock k h v actions = Some v'.
Proof.
  induction actions as [|a rest IH]; intros k h s v Hv Hall.
  - exists h, s, v. simpl. split; [done|]. split; [apply extends_refl|done].
  - apply Forall_cons in Hall as [Ha Hrest].
    destruct (step_simulation (clock k) h s v a Hv Ha)
      as (h1 & s1 & v1 & Hstep & He1 & Hv1 & Hn1).
    assert (Hrest1 : Forall (typed h1) rest).
    { eapply Forall_impl; [exact Hrest|]. intros a'. by apply typed_extends. }
    destruct (IH (S k) h1 s1 v1 Hv1 Hrest1) as (h' & s' & v' & Hrun & He & Hv' & Hf).
    exists h', s', v'. simpl. rewrite Hstep, Hn1. simpl.
    split; [done|]. split; [by eapply extends_trans|]. split; [done|].
    by rewrite <- (fold_value_extends clock h h1 rest He1 Hrest).
Qed.

Lemma replay_snapshot_fold (clock : nat → Z) (actions : list Action) k h s v :
  snapshot h s = Some v → Forall (typed h) actions →
  replay_snapshot clock k h s actions = fold_value clock k h v actions.
Proof.
  intros Hv Hall.
  destruct (replay_simulation clock actions k h s v Hv Hall)
    as (h' & s' & v' & Hrun & _ & Hv' & ->).
  unfold replay_snapshot. by rewrite Hrun.
Qed.

End ReducerRuns.

(** ** What a user of the reducer can rely on *)

Module ReducerProps.

Import Values ReducerRuns.

Implicit Types (now : Z) (h : heap) (s : loc) (v : StateValue) (a : Action).

(** X1: a replay never writes to an object that was there before it: every
    state that could be read before the replay reads the same after it,
    whatever the actions were. *)
Theorem replay_keeps_old_states (clock : nat → Z) k h s (actions : list Action) h' s' :
  replay clock k h s actions = Some (h', s') →
  ∀ l v, snapshot h l = Some v → snapshot h' l = Some v.
Proof.
  intros Hrun l v. apply snapshot_extends. by eapply replay_extends.
Qed.

Lemma replay_keeps_old_states_witness :
  let h := [OArray [mkTodo "1" "milk"]; OState (mkState 0 None SPending)] in
  let actions := [removeTodo "1"; addTodo "tea"; loadTodosFailure "down"] in
  ∃ h' s', replay (λ n, Z.of_nat n) 0 h 1 actions = Some (h', s')
    ∧ snapshot h' 1 = Some (mkValue [mkTodo "1" "milk"] None SPending)
    ∧ snapshot h' s' = Some (mkValue [mkTodo "1" "tea"] (Some "down") SError).
Proof.
  intros h actions.
  destruct (replay (λ n, Z.of_nat n) 0 h 1 actions) as [[h' s']|] eqn:Hrun;
    [|vm_compute in Hrun; discriminate].
  exists h', s'. split; [reflexivity|]. split.
  - exact (replay_keeps_old_states _ 0 h 1 actions h' s' Hrun 1 _ eq_refl).
  - vm_compute in Hrun. injection Hrun as <- <-. reflexivity.
Defined.

(** X2: the reducer hands back the reference it was given exactly when the
    action's type is none of the five it handles; a handled action gives a
    new object even when it changes nothing in the state's value. *)
Theorem same_reference_iff_unhandled now h s a h' s' :
  is_Some (h !! s) →
  todoReducer now h (Some s) a = Some (h', s') →
  s' = s ↔ type a ∉ handled_types.
Proof.
  intros [o Ho] Hrun. apply lookup_lt_Some in Ho.
  destruct (todoReducer_route now h (Some s) a) as [(Hin & fn & Hfn & Heq)|(Hn & Heq)];
    rewrite Heq in Hrun.
  - apply Hfn in Hrun as (_ & Hlen & _). simpl in Hlen.
    split; [intros ->; lia|done].
  - injection Hrun as <- <-. done.
Qed.

Lemma same_reference_iff_unhandled_witness :
  let h := [OArray [mkTodo "1" "milk"]; OState (mkState 0 None SPending)] in
  (is_Some (h !! 1)
   ∧ todoReducer 0 h (Some 1) (removeTodo "2")
     = Some (h ++ [OArray [mkTodo "1" "milk"]; OState (mkState 2 None SPending)], 3)
   ∧ (3 = 1 ↔ type (removeTodo "2") ∉ handled_types)).
Proof.
  intros h.
  assert (Hs : is_Some (h !! 1)) by (eexists; reflexivity).
  split; [exact Hs|]. split; [reflexivity|].
  exact (same_reference_iff_unhandled 0 h 1 (removeTodo "2") _ 3 Hs eq_refl).
Defined.

(** X3: from a state object with its array, a replay of typed actions
    never throws: it returns a state object with its array again. *)
Theorem replay_returns (clock : nat → Z) k h s v (actions : list Action) :
  snapshot h s = Some v →
  Forall (typed h) actions →
  ∃ h' s' v', replay clock k h s actions = Some (h', s') ∧ snapshot h' s' = Some v'.
Proof.
  intros Hv Hall.
  destruct (replay_simulation clock actions k h s v Hv Hall)
    as (h' & s' & v' & Hrun & _ & Hv' & _).
  by exists h', s', v'.
Qed.

Lemma replay_returns_witness :
  let actions := [addTodo "tea"; loadTodos; loadTodosSuccess 0;
                  mkAction "[Scoreboard Page] Home Score" PNone; removeTodo "0"] in
  (snapshot heap0 initialState = Some (mkValue [] None SPending)
   ∧ ∃ h' s' v', replay (λ n, Z.of_nat n) 0 heap0 initialState actions = Some (h', s')
       ∧ snapshot h' s' = Some v').
Proof.
  intros actions. split; [reflexivity|].
  apply (replay_returns _ 0 heap0 initialState _ actions eq_refl).
  repeat apply Forall_cons_2; try apply Forall_nil_2.
  - apply typed_addTodo.
  - apply typed_loadTodos.
  - by apply (typed_loadTodosSuccess heap0 0 []).
  - apply typed_other. apply (bool_decide_unpack _). vm_compute. exact I.
  - apply typed_removeTodo.
Defined.

(** *** Removing *)

Lemma filter_id_twice (i : string) (xs : list Todo) :
  filter (λ todo, id todo ≠ i) (filter (λ todo, id todo ≠ i) xs)
  = filter (λ todo, id todo ≠ i) xs.
Proof.
  induction xs as [|x xs IH]; [done|]. rewrite filter_cons.
  destruct (decide (id x ≠ i)) as [Hx|Hx]; [|exact IH].
  by rewrite filter_cons_True, IH.
Qed.

Lemma filter_id_swap (i j : string) (xs : list Todo) :
  filter (λ todo, id todo ≠ j) (filter (λ todo, id todo ≠ i) xs)
  = filter (λ todo, id todo ≠ i) (filter (λ todo, id todo ≠ j) xs).
Proof.
  induction xs as [|x xs IH]; [done|]. rewrite !(filter_cons _ x).
  destruct (decide (id x ≠ i)) as [Hi|Hi], (decide (id x ≠ j)) as [Hj|Hj];
    rewrite ?filter_cons_True, ?filter_cons_False by done; by rewrite IH.
Qed.

Lemma fold_removeTodo (clock : nat → Z) k h v (i : string) (rest : list Action) :
  fold_value clock k h v (removeTodo i :: rest)
  = fold_value clock (S k) h
      (mkValue (filter (λ todo, id todo ≠ i) (v_todos v)) (v_error v) (v_status v)) rest.
Proof. simpl. unfold next_value; simpl. by rewrite filter_id_neq. Qed.

Lemma fold_addTodo (clock : nat → Z) k h v (c : string) (rest : list Action) :
  fold_value clock k h v (addTodo c :: rest)
  = fold_value clock (S k) h
      (mkValue (v_todos v ++ [mkTodo (pretty (clock k)) c]) (v_error v) (v_status v)) rest.
Proof. reflexivity. Qed.

(** X4: removing an id a second time changes nothing in the state's value,
    and two removals give the same value in either order. *)
Theorem removeTodo_idempotent_commutes (clock : nat → Z) k h s v (i j : string) :
  snapshot h s = Some v →
  replay_snapshot clock k h s [removeTodo i; removeTodo i]
  = replay_snapshot clock k h s [removeTodo i]
  ∧ replay_snapshot clock k h s [removeTodo i; removeTodo j]
    = replay_snapshot clock k h s [removeTodo j; removeTodo i]
  ∧ is_Some (replay_snapshot clock k h s [removeTodo i; removeTodo j]).
Proof.
  intros Hv.
  rewrite !(replay_snapshot_fold clock _ k h s v Hv)
    by (repeat constructor).
  rewrite !fold_removeTodo. simpl.
  rewrite filter_id_twice, (filter_id_swap i j). done.
Qed.

Lemma removeTodo_idempotent_commutes_witness :
  let h := [OArray [mkTodo "1" "milk"; mkTodo "2" "eggs"; mkTodo "3" "tea"];
            OState (mkState 0 None SSuccess)] in
  (snapshot h 1
   = Some (mkValue [mkTodo "1" "milk"; mkTodo "2" "eggs"; mkTodo "3" "tea"] None SSuccess)
   ∧ replay_snapshot (λ _, 0%Z) 0 h 1 [removeTodo "1"; removeTodo "3"]
     = replay_snapshot (λ _, 0%Z) 0 h 1 [removeTodo "3"; removeTodo "1"]
   ∧ replay_snapshot (λ _, 0%Z) 0 h 1 [removeTodo "1"; removeTodo "3"]
     = Some (mkValue [mkTodo "2" "eggs"] None SSuccess)).
Proof.
  intros h. split; [reflexivity|].
  destruct (removeTodo_idempotent_commutes (λ _, 0%Z) 0 h 1 _ "1" "3" eq_refl)
    as (_ & Hswap & _).
  split; [exact Hswap|reflexivity].
Defined.

(** *** Ids from the clock *)

(** X5: two todos added while the clock shows the same millisecond get the
    same id, and removing that id removes both of them. *)
Theorem same_millisecond_same_id (clock : nat → Z) k h s v (c1 c2 : string) :
  snapshot h s = Some v →
  clock (S k) = clock k →
  replay_snapshot clock k h s [addTodo c1; addTodo c2]
  = Some (mkValue (v_todos v ++ [mkTodo (pretty (clock k)) c1; mkTodo (pretty (clock k)) c2])
                  (v_error v) (v_status v))
  ∧ replay_snapshot clock k h s [addTodo c1; addTodo c2; removeTodo (pretty (clock k))]
    = Some (mkValue (filter (λ todo, id todo ≠ pretty (clock k)) (v_todos v))
                    (v_error v) (v_status v)).
Proof.
  intros Hv Hsame.
  rewrite !(replay_snapshot_fold clock _ k h s v Hv) by (repeat constructor).
  rewrite !fold_addTodo, fold_removeTodo. cbn [v_todos v_error v_status fold_value].
  rewrite Hsame, <- app_assoc. split; [done|].
  rewrite filter_app. simpl.
  rewrite !filter_cons_False by (simpl; intros Hn; by apply Hn).
  by rewrite filter_nil, app_nil_r.
Qed.

Lemma same_millisecond_same_id_witness :
  let h := [OArray [mkTodo "1" "milk"]; OState (mkState 0 None SPending)] in
  (snapshot h 1 = Some (mkValue [mkTodo "1" "milk"] None SPending)
   ∧ replay_snapshot (λ _, 1700000000000%Z) 0 h 1
       [addTodo "eggs"; addTodo "tea"; removeTodo "1700000000000"]
     = Some (mkValue [mkTodo "1" "milk"] None SPending)).
Proof.
  intros h. split; [reflexivity|].
  destruct (same_millisecond_same_id (λ _, 1700000000000%Z) 0 h 1 _ "eggs" "tea"
              eq_refl eq_refl) as [_ Hremoved].
  exact Hremoved.
Defined.

(** X6: adding a todo and then removing the id it was given gives back the
    value the state had, provided no todo had that id before. *)
Theorem addTodo_removeTodo_round_trip (clock : nat → Z) k h s v (c : string) :
  snapshot h s = Some v →
  (∀ todo, todo ∈ v_todos v → id todo ≠ pretty (clock k)) →
  replay_snapshot clock k h s [addTodo c; removeTodo (pretty (clock k))] = Some v.
Proof.
  intros Hv Hfresh.
  rewrite (replay_snapshot_fold clock _ k h s v Hv) by (repeat constructor).
  rewrite fold_addTodo, fold_removeTodo. cbn [v_todos v_error v_status fold_value].
  rewrite filter_app, (filter_id_absent _ _ Hfresh).
  rewrite filter_cons_False by (simpl; intros Hn; by apply Hn).
  rewrite filter_nil, app_nil_r. by destruct v.
Qed.

Lemma addTodo_removeTodo_round_trip_witness :
  let h := [OArray [mkTodo "1" "milk"]; OState (mkState 0 None SPending)] in
  (snapshot h 1 = Some (mkValue [mkTodo "1" "milk"] None SPending)
   ∧ replay_snapshot (λ _, 7%Z) 0 h 1 [addTodo "eggs"; removeTodo "7"]
     = Some (mkValue [mkTodo "1" "milk"] None SPending)).
Proof.
  intros h. split; [reflexivity|].
  apply (addTodo_removeTodo_round_trip (λ _, 7%Z) 0 h 1 _ "eggs" eq_refl).
  intros todo Hin. apply list_elem_of_singleton in Hin as ->. discriminate.
Defined.

Lemma ids_filter_subseteq (f : Todo → bool) (xs : list Todo) (i : string) :
  i ∈ map id (List.filter f xs) → i ∈ map id xs.
Proof.
  induction xs as [|x xs IH]; simpl; [done|].
  destruct (f x); simpl; rewrite ?elem_of_cons; intuition.
Qed.

Lemma ids_filter_NoDup (f : Todo → bool) (xs : list Todo) :
  NoDup (map id xs) → NoDup (map id (List.filter f xs)).
Proof.
  induction xs as [|x xs IH]; simpl; [done|].
  rewrite NoDup_cons. intros [Hx Hxs].
  destruct (f x); simpl; [|by apply IH].
  apply NoDup_cons. split; [|by apply IH].
  intros Hin. by apply Hx, (ids_filter_subseteq f).
Qed.

(** One run at a reading that is not before [bound] and before [bound']. *)
Lemma next_value_ids now h v a v' (bound bound' : Z) :
  NoDup (ids v) → stamped_before bound v →
  (bound ≤ now)%Z → (now < bound')%Z →
  typed h a → type a ≠ loadTodosSuccess_type →
  next_value now h v a = Some v' →
  NoDup (ids v') ∧ stamped_before bound' v'.
Proof.
  intros Hnd Hst Hlo Hhi Ht Hns.
  assert (Hkeep : stamped_before bound' v).
  { intros i Hi. destruct (Hst i Hi) as (z & Hz & ->). exists z. split; [lia|done]. }
  destruct Ht as [c|i| |ts xs Hts|e|a' Hn].
  - intros [= <-]. unfold stamped_before, ids in *. simpl. rewrite map_app. simpl.
    split.
    + apply NoDup_app. split; [done|]. split; [|apply NoDup_singleton].
      intros i Hi Hin. apply list_elem_of_singleton in Hin as ->.
      destruct (Hst _ Hi) as (z & Hz & Heq). apply (inj pretty) in Heq. lia.
    + intros i. rewrite elem_of_app, list_elem_of_singleton.
      intros [Hi| ->]; [by apply Hkeep|]. exists now. by split.
  - intros [= <-]. unfold stamped_before, ids in *. simpl. split.
    + by apply ids_filter_NoDup.
    + intros j Hj. by eapply Hkeep, ids_filter_subseteq.
  - intros [= <-]. done.
  - done.
  - intros [= <-]. done.
  - rewrite (next_value_other now h v a' Hn). intros [= <-]. done.
Qed.

Lemma fold_value_ids (clock : nat → Z) h (actions : list Action) :
  ticking clock →
  ∀ k v v',
  NoDup (ids v) → stamped_before (clock k) v →
  Forall (λ a, typed h a ∧ type a ≠ loadTodosSuccess_type) actions →
  fold_value clock k h v actions = Some v' →
  NoDup (ids v') ∧ stamped_before (clock (k + length actions)) v'.
Proof.
  intros Htick. induction actions as [|a rest IH]; intros k v v' Hnd Hst Hall; simpl.
  - intros [= <-]. by rewrite Nat.add_0_r.
  - apply Forall_cons in Hall as [[Ha Hns] Hrest].
    destruct (next_value (clock k) h v a) as [v1|] eqn:Hstep; simpl; [|discriminate].
    assert (Hnext : (clock k < clock (S k))%Z) by (apply Htick; lia).
    destruct (next_value_ids (clock k) h v a v1 (clock k) (clock (S k))
                Hnd Hst (Z.le_refl _) Hnext Ha Hns Hstep) as [Hnd1 Hst1].
    replace (k + S (length rest)) with (S k + length rest) by lia.
    by apply IH.
Qed.

(** X7: as long as the clock has moved on between any two reducer runs, a
    replay without [loadTodosSuccess] keeps the ids of the todos distinct:
    from todos with distinct ids, all stamped before the replay began, it
    ends in todos with distinct ids. *)
Theorem ticking_clock_distinct_ids (clock : nat → Z) k h s v (actions : list Action) :
  ticking clock →
  snapshot h s = Some v →
  NoDup (ids v) → stamped_before (clock k) v →
  Forall (λ a, typed h a ∧ type a ≠ loadTodosSuccess_type) actions →
  ∃ v', replay_snapshot clock k h s actions = Some v' ∧ NoDup (ids v').
Proof.
  intros Htick Hv Hnd Hst Hall.
  assert (Htyped : Forall (typed h) actions).
  { eapply Forall_impl; [exact Hall|]. by intros a [Ha _]. }
  destruct (replay_simulation clock actions k h s v Hv Htyped)
    as (h' & s' & v' & Hrun & _ & Hv' & Hfold).
  exists v'. split.
  - unfold replay_snapshot. by rewrite Hrun.
  - by destruct (fold_value_ids clock h actions Htick k v v' Hnd Hst Hall Hfold).
Qed.

Lemma ticking_clock_distinct_ids_witness :
  let actions := [addTodo "milk"; addTodo "eggs"; removeTodo "0"; loadTodos; addTodo "tea"] in
  ∃ v', replay_snapshot (λ n, Z.of_nat n) 0 heap0 initialState actions = Some v'
    ∧ v_todos v' = [mkTodo "1" "eggs"; mkTodo "4" "tea"]
    ∧ NoDup (ids v').
Proof.
  intros actions.
  destruct (ticking_clock_distinct_ids (λ n, Z.of_nat n) 0 heap0 initialState
              (mkValue [] None SPending) actions) as (v' & Hrun & Hnd).
  - intros i j Hij. lia.
  - reflexivity.
  - apply NoDup_nil_2.
  - intros i Hi. by apply elem_of_nil in Hi.
  - repeat apply Forall_cons_2; try apply Forall_nil_2;
      (split; [constructor|discriminate]).
  - exists v'. split; [exact Hrun|]. split; [|exact Hnd].
    vm_compute in Hrun. by injection Hrun as <-.
Defined.

(** *** Which action changes which field *)

Lemma next_value_frame now h v a v' :
  typed h a → next_value now h v a = Some v' →
  (type a ∉ [loadTodosSuccess_type; loadTodosFailure_type] → v_error v' = v_error v)
  ∧ (type a ∉ [loadTodos_type; loadTodosSuccess_type; loadTodosFailure_type] →
     v_status v' = v_status v)
  ∧ (type a ∉ [addTodo_type; removeTodo_type; loadTodosSuccess_type] →
     v_todos v' = v_todos v).
Proof.
  rewrite !not_elem_of_cons.
  intros [c|i| |ts xs Hts|e|a' Hn]; [| | | | |rewrite (next_value_other now h v a' Hn)];
    unfold next_value; simpl; rewrite ?Hts; simpl; intros [= <-]; simpl;
    split_and!; try done; intros Hne; exfalso; tauto.
Qed.

(** X8: over a whole replay, [error] is only changed by [loadTodosSuccess]
    and [loadTodosFailure], [status] only by the three load actions, and
    the todos only by [addTodo], [removeTodo] and [loadTodosSuccess].  So
    [loadTodos] after a failure leaves the old error in place. *)
Theorem fields_change_only_by_their_actions (clock : nat → Z) (actions : list Action) :
  ∀ k h s v,
  snapshot h s = Some v →
  Forall (typed h) actions →
  ∃ v', replay_snapshot clock k h s actions = Some v'
    ∧ (Forall (λ a, type a ∉ [loadTodosSuccess_type; loadTodosFailure_type]) actions →
       v_error v' = v_error v)
    ∧ (Forall (λ a, type a ∉ [loadTodos_type; loadTodosSuccess_type;
                              loadTodosFailure_type]) actions →
       v_status v' = v_status v)
    ∧ (Forall (λ a, type a ∉ [addTodo_type; removeTodo_type; loadTodosSuccess_type])
         actions →
       v_todos v' = v_todos v).
Proof.
  intros k h s v Hv Hall.
  rewrite (replay_snapshot_fold clock actions k h s v Hv Hall).
  clear Hv s. revert k v. induction Hall as [|a rest Ha Hrest IH]; intros k v.
  - exists v. done.
  - simpl.
    destruct (step_value_defined (clock k) h v a Ha) as [v1 Hstep].
    rewrite Hstep. simpl.
    destruct (next_value_frame (clock k) h v a v1 Ha Hstep) as (He1 & Hs1 & Ht1).
    destruct (IH (S k) v1) as (v' & Hfold & He & Hs & Ht).
    exists v'. split; [done|].
    split_and!; intros Hno; apply Forall_cons in Hno as [Hno1 Hno2].
    + by rewrite (He Hno2), (He1 Hno1).
    + by rewrite (Hs Hno2), (Hs1 Hno1).
    + by rewrite (Ht Hno2), (Ht1 Hno1).
Qed.

Lemma fields_change_only_by_their_actions_witness :
  let h := [OArray [mkTodo "1" "milk"]; OState (mkState 0 None SSuccess)] in
  let actions := [loadTodosFailure "down"; loadTodos; addTodo "tea"] in
  (snapshot h 1 = Some (mkValue [mkTodo "1" "milk"] None SSuccess)
   ∧ replay_snapshot (λ _, 5%Z) 0 h 1 actions
     = Some (mkValue [mkTodo "1" "milk"; mkTodo "5" "tea"] (Some "down") SLoading)
   ∧ ∃ v', replay_snapshot (λ _, 5%Z) 0 h 1 [loadTodos; addTodo "tea"] = Some v'
       ∧ v_error v' = None).
Proof.
  intros h actions. split; [reflexivity|]. split; [reflexivity|].
  destruct (fields_change_only_by_their_actions (λ _, 5%Z) [loadTodos; addTodo "tea"]
              0 h 1 _ eq_refl) as (v' & Hrun & He & _).
  - repeat constructor.
  - exists v'. split; [exact Hrun|]. apply He.
    repeat apply Forall_cons_2; try apply Forall_nil_2;
      apply (bool_decide_unpack _); vm_compute; exact I.
Defined.

(** *** Replays that agree *)

Lemma next_value_agree now1 now2 h1 h2 v a :
  typed h1 a →
  (type a = addTodo_type → now1 = now2) →
  (∀ ts, props a = PTodos ts → read_array h1 ts = read_array h2 ts) →
  next_value now1 h1 v a = next_value now2 h2 v a.
Proof.
  intros [c|i| |ts xs Hts|e|a' Hn] Hnow Hpay; try reflexivity.
  - by rewrite (Hnow eq_refl).
  - unfold next_value; simpl. by rewrite (Hpay ts eq_refl).
  - by rewrite !next_value_other.
Qed.

Lemma fold_value_agree (clock1 clock2 : nat → Z) h1 h2 (actions : list Action) :
  Forall (typed h1) actions →
  Forall (λ a, ∀ ts, props a = PTodos ts → read_array h1 ts = read_array h2 ts) actions →
  ∀ k1 k2 v,
  (∀ j a, actions !! j = Some a → type a = addTodo_type →
          clock1 (k1 + j) = clock2 (k2 + j)) →
  fold_value clock1 k1 h1 v actions = fold_value clock2 k2 h2 v actions.
Proof.
  induction 1 as [|a rest Ha _ IH]; intros Hpay k1 k2 v Hclock; [done|].
  apply Forall_cons in Hpay as [Hpa Hprest]. simpl.
  rewrite (next_value_agree (clock1 k1) (clock2 k2) h1 h2 v a Ha); [|
    |exact Hpa].
  - destruct (next_value (clock2 k2) h2 v a) as [v1|]; simpl; [|done].
    apply IH; [done|]. intros j a' Hj Ht.
    replace (S k1 + j) with (k1 + S j) by lia.
    replace (S k2 + j) with (k2 + S j) by lia.
    by apply (Hclock (S j) a').
  - intros Ht. specialize (Hclock 0 a eq_refl Ht). by rewrite !Nat.add_0_r in Hclock.
Qed.

(** X9: two replays of the same typed actions end in deep-equal states
    when they start from deep-equal states, read the same todos from the
    arrays the actions bring along, and read the same clock at every
    [addTodo]; heap layout and locations do not matter. *)
Theorem replay_deep_equal (clock1 clock2 : nat → Z) k1 k2 h1 s1 h2 s2 v
    (actions : list Action) :
  snapshot h1 s1 = Some v →
  snapshot h2 s2 = Some v →
  Forall (typed h1) actions →
  Forall (typed h2) actions →
  Forall (λ a, ∀ ts, props a = PTodos ts → read_array h1 ts = read_array h2 ts) actions →
  (∀ j a, actions !! j = Some a → type a = addTodo_type →
          clock1 (k1 + j) = clock2 (k2 + j)) →
  replay_snapshot clock1 k1 h1 s1 actions = replay_snapshot clock2 k2 h2 s2 actions
  ∧ is_Some (replay_snapshot clock1 k1 h1 s1 actions).
Proof.
  intros Hv1 Hv2 Ht1 Ht2 Hpay Hclock.
  destruct (replay_simulation clock1 actions k1 h1 s1 v Hv1 Ht1)
    as (h' & s' & v' & Hrun & _ & Hv' & Hfold).
  rewrite (replay_snapshot_fold clock2 actions k2 h2 s2 v Hv2 Ht2).
  rewrite <- (fold_value_agree clock1 clock2 h1 h2 actions Ht1 Hpay k1 k2 v Hclock).
  rewrite Hfold. unfold replay_snapshot. rewrite Hrun. simpl. by rewrite Hv'.
Qed.

Lemma replay_deep_equal_witness :
  let h1 := [OArray [mkTodo "1" "milk"]; OState (mkState 0 None SPending)] in
  let h2 := [OState (mkState 2 (Some "down") SError); OArray [];
             OArray [mkTodo "1" "milk"]; OState (mkState 2 None SPending)] in
  let actions := [loadTodos; addTodo "tea"; removeTodo "1"] in
  (snapshot h1 1 = snapshot h2 3
   ∧ replay_snapshot (λ n, if decide (n = 1) then 9%Z else 0%Z) 0 h1 1 actions
     = replay_snapshot (λ n, if decide (n = 5) then 9%Z else 3%Z) 4 h2 3 actions
   ∧ replay_snapshot (λ n, if decide (n = 1) then 9%Z else 0%Z) 0 h1 1 actions
     = Some (mkValue [mkTodo "9" "tea"] None SLoading)).
Proof.
  intros h1 h2 actions. split; [reflexivity|].
  destruct (replay_deep_equal (λ n, if decide (n = 1) then 9%Z else 0%Z)
              (λ n, if decide (n = 5) then 9%Z else 3%Z) 0 4 h1 1 h2 3
              (mkValue [mkTodo "1" "milk"] None SPending) actions) as [Heq _].
  - reflexivity.
  - reflexivity.
  - repeat constructor.
  - repeat constructor.
  - repeat apply Forall_cons_2; try apply Forall_nil_2; intros ts; discriminate.
  - intros [|[|[|j]]] a Hj Ht; simpl in Hj; try discriminate;
      injection Hj as <-; try discriminate. reflexivity.
  - split; [exact Heq|reflexivity].
Defined.

End ReducerProps.

(** ** The selectors over time *)

Module SelectorProps.

Import Selections.

Lemma todos_projector_stable h h' (l : loc) :
  is_Some (read_state h l) → extends h h' →
  Selector.todos_projector h' [Selector.VRef l] = Selector.todos_projector h [Selector.VRef l].
Proof.
  intros [st Hst] He. simpl. by rewrite Hst, (read_state_extends h h' l st He Hst).
Qed.

Lemma selectAllTodos_step h0 h (m : Selector.Memo (option loc)) (app : Selector.AppState) :
  memo_valid h0 m → extends h0 h → is_Some (read_state h (Selector.todos app)) →
  (Selector.selectAllTodos m h app).2 = select_directly h app
  ∧ memo_valid h (Selector.selectAllTodos m h app).1.
Proof.
  intros Hm He Hvalid.
  unfold Selector.selectAllTodos, Selector.createSelector, select_directly.
  set (rs := Selector.results [Selector.selectTodos] h app).
  assert (Hnew : memo_valid h (Selector.recompute Selector.todos_projector m h rs).1).
  { intros args out [= <- <-] h' He'. by apply todos_projector_stable. }
  destruct (Selector.last m) as [[args out]|] eqn:Hlast; [|done].
  destruct (Selector.same_refs args rs) eqn:Hsame; [|done].
  apply SelectorFacts.same_refs_spec in Hsame as ->. simpl. split.
  - symmetry. by apply (Hm rs out Hlast).
  - intros args' out' Hl' h' He'. apply (Hm args' out' Hl').
    by eapply extends_trans.
Qed.

(** X10: over any number of invocations, in heaps that only grow,
    [selectAllTodos] returns what reading [state.todos.todos] directly
    returns at that moment: the memo cell never serves an array that is
    not the current one. *)
Theorem selectAllTodos_reads_through (runs : list (heap * Selector.AppState)) :
  growing [] runs →
  (Selector.select_all Selector.selectAllTodos Selector.fresh_memo runs).2
  = map (λ r, select_directly r.1 r.2) runs.
Proof.
  assert (Hgen : ∀ h0 m, memo_valid h0 m → growing h0 runs →
            (Selector.select_all Selector.selectAllTodos m runs).2
            = map (λ r, select_directly r.1 r.2) runs).
  { induction runs as [|[h app] rest IH]; intros h0 m Hm Hg; [done|].
    destruct Hg as (He & Hvalid & Hrest). simpl.
    destruct (selectAllTodos_step h0 h m app Hm He Hvalid) as [Hout Hm'].
    destruct (Selector.selectAllTodos m h app) as [m1 out]. simpl in Hout, Hm'.
    specialize (IH h m1 Hm' Hrest).
    destruct (Selector.select_all Selector.selectAllTodos m1 rest) as [m2 outs].
    simpl in *. by rewrite Hout, IH. }
  apply Hgen. intros args out. discriminate.
Qed.

Lemma selectAllTodos_reads_through_witness :
  let h := [OArray [mkTodo "1" "milk"]; OState (mkState 0 None SPending)] in
  let h' := h ++ [OArray []; OState (mkState 2 None SSuccess)] in
  let runs := [(h, Selector.mkAppState 1); (h', Selector.mkAppState 1);
               (h', Selector.mkAppState 3); (h', Selector.mkAppState 3)] in
  (growing [] runs
   ∧ (Selector.select_all Selector.selectAllTodos Selector.fresh_memo runs).2
     = [Some 0; Some 0; Some 2; Some 2]).
Proof.
  intros h h' runs.
  assert (Hg : growing [] runs).
  { simpl. split_and!; try done; try (eexists; reflexivity);
      first [apply extends_refl | apply ReducerRuns.extends_app]. }
  split; [exact Hg|].
  exact (selectAllTodos_reads_through runs Hg).
Defined.

(** The first invocation of a fresh selector runs the projector. *)
Lemma selectAllTodos_first h (s : loc) (st : TodoState) :
  read_state h s = Some st →
  Selector.selectAllTodos Selector.fresh_memo h (Selector.mkAppState s)
  = (Selector.mkMemo (Some ([Selector.VRef s], Some (todos st))) 1, Some (todos st)).
Proof.
  intros Hst. unfold Selector.selectAllTodos, Selector.createSelector,
    Selector.recompute. simpl. by rewrite Hst.
Qed.

(** An invocation on another state object runs the projector again. *)
Lemma selectAllTodos_other_state h' (s s' : loc) out (n : nat) :
  s' ≠ s →
  Selector.selectAllTodos (Selector.mkMemo (Some ([Selector.VRef s], out)) n) h'
    (Selector.mkAppState s')
  = (Selector.mkMemo (Some ([Selector.VRef s'], todos <$> read_state h' s')) (S n),
     todos <$> read_state h' s').
Proof.
  intros Hne. unfold Selector.selectAllTodos, Selector.createSelector,
    Selector.recompute. simpl.
  unfold Selector.strict_eq. rewrite bool_decide_eq_false_2; [done|].
  intros [= ->]. done.
Qed.

(** X11: a selector invoked before and after a dispatch.  After an action
    the reducer does not handle, [selectAllTodos] does not run its
    projector again; after a handled action it runs it once more; and
    after [loadTodos] or [loadTodosFailure] the array it returns is the
    one it returned before. *)
Theorem selector_after_dispatch (now : Z) h (s : loc) (st : TodoState) (a : Action)
    h' (s' : loc) :
  read_state h s = Some st →
  todoReducer now h (Some s) a = Some (h', s') →
  let r1 := Selector.selectAllTodos Selector.fresh_memo h (Selector.mkAppState s) in
  let r2 := Selector.selectAllTodos r1.1 h' (Selector.mkAppState s') in
  r1.2 = Some (todos st)
  ∧ (type a ∉ handled_types → r2 = r1)
  ∧ (type a ∈ handled_types → Selector.calls r2.1 = 2)
  ∧ (Values.typed h a → type a ∈ [loadTodos_type; loadTodosFailure_type] →
     r2.2 = r1.2).
Proof.
  intros Hst Hrun r1 r2. subst r1 r2.
  rewrite (selectAllTodos_first h s st Hst). simpl.
  assert (Hs : s < length h).
  { apply read_state_Some in Hst. by apply lookup_lt_Some in Hst. }
  split; [done|].
  destruct (ReducerRuns.todoReducer_route now h (Some s) a)
    as [(Hin & fn & Hfn & Heq)|(Hn & Heq)].
  - pose proof Hrun as Hrun'. rewrite Heq in Hrun'.
    apply Hfn in Hrun' as (_ & Hlen & _). simpl in Hlen.
    assert (Hne : s' ≠ s) by lia.
    rewrite (selectAllTodos_other_state h' s s' _ 1 Hne). simpl.
    split; [done|]. split; [done|].
    intros Ht Hload.
    rewrite !elem_of_cons, elem_of_nil in Hload.
    destruct Ht as [c|i| |ts xs Hts|e|a' Hn]; simpl in Hload;
      try (exfalso; intuition discriminate).
    + rewrite todoReducer_loadTodos in Hrun.
      destruct (on_loadTodos_spec now h s st Hst) as (h1 & s1 & Hrun1 & _ & Hst1).
      rewrite Hrun in Hrun1. injection Hrun1 as <- <-. by rewrite Hst1.
    + rewrite todoReducer_loadTodosFailure in Hrun.
      destruct (on_loadTodosFailure_spec now h s st e Hst)
        as (h1 & s1 & Hrun1 & _ & Hst1).
      rewrite Hrun in Hrun1. injection Hrun1 as <- <-. by rewrite Hst1.
  - rewrite Heq in Hrun. injection Hrun as <- <-. simpl. split; [|split; [done|]].
    + intros _. unfold Selector.selectAllTodos, Selector.createSelector. simpl.
      unfold Selector.strict_eq. by rewrite bool_decide_eq_true_2.
    + intros _ Hload. exfalso. apply Hn.
      rewrite !elem_of_cons, elem_of_nil in Hload. unfold handled_types.
      rewrite !elem_of_cons. tauto.
Qed.

Lemma selector_after_dispatch_witness :
  let h := [OArray [mkTodo "1" "milk"]; OState (mkState 0 None SPending)] in
  let after := alloc h (OState (mkState 0 (Some "down") SError)) in
  let r1 := Selector.selectAllTodos Selector.fresh_memo h (Selector.mkAppState 1) in
  let r2 := Selector.selectAllTodos r1.1 after.1 (Selector.mkAppState after.2) in
  (todoReducer 0 h (Some 1) (loadTodosFailure "down") = Some after
   ∧ Selector.calls r2.1 = 2
   ∧ r2.2 = Some 0 ∧ r1.2 = Some 0).
Proof.
  intros h after r1 r2.
  destruct (selector_after_dispatch 0 h 1 (mkState 0 None SPending)
              (loadTodosFailure "down") after.1 after.2 eq_refl eq_refl)
    as (Hfirst & _ & Hcalls & Hsame).
  split; [reflexivity|]. split.
  - apply Hcalls. apply (bool_decide_unpack _). vm_compute. exact I.
  - split; [|exact Hfirst].
    transitivity r1.2; [|exact Hfirst].
    apply Hsame; [constructor|]. apply (bool_decide_unpack _). vm_compute. exact I.
Defined.

End SelectorProps.

(** ** The course reducer *)

Module CourseProps.

Import Course.

Implicit Types (h : Course.arrays) (s : loc) (a : CourseAction) (xs : list CourseItem).

Lemma courseReducer_add h s xs (p : CourseItem) :
  h !! s = Some xs →
  courseReducer h (Some s) (AddItemAction p) = Some (h ++ [xs ++ [p]], length h).
Proof. intros Hs. unfold courseReducer. simpl. by rewrite Hs. Qed.

Lemma courseReducer_foreign h (state : option loc) (t : string) :
  t ≠ ADD_ITEM →
  courseReducer h state (Foreign t) = Some (h, default initialState state).
Proof.
  intros Hne. apply String.eqb_neq in Hne. unfold courseReducer. simpl.
  by rewrite Hne.
Qed.

(** The reducer only ever adds arrays. *)
Lemma courseReducer_keeps h (state : option loc) a h' s' :
  courseReducer h state a = Some (h', s') →
  ∀ (l : loc) xs, h !! l = Some xs → h' !! l = Some xs.
Proof.
  unfold courseReducer.
  destruct (String.eqb (type a) ADD_ITEM).
  - destruct a as [p|t]; [|discriminate].
    destruct (h !! default initialState state) as [ys|]; simpl; [|discriminate].
    intros Hrun. injection Hrun as <- <-. intros l xs Hl. by apply lookup_app_l_Some.
  - intros Hrun. by injection Hrun as <- <-.
Qed.

Lemma replay_keeps (actions : list CourseAction) :
  ∀ h s h' s', replay_courses h s actions = Some (h', s') →
  ∀ (l : loc) xs, h !! l = Some xs → h' !! l = Some xs.
Proof.
  induction actions as [|a rest IH]; intros h s h' s'; simpl.
  - intros Hrun. by injection Hrun as <- <-.
  - destruct (courseReducer h (Some s) a) as [[h1 s1]|] eqn:Hstep; simpl; [|discriminate].
    intros Hrun l xs Hl. eapply IH; [exact Hrun|]. by eapply courseReducer_keeps.
Qed.

(** X12: a replay from an array of courses never throws on typed actions
    and ends in the courses it began with followed by the payloads of the
    [AddItemAction]s, in the order of dispatch; the array it began with is
    still what it was. *)
Theorem replay_appends_payloads (actions : list CourseAction) :
  ∀ h s xs,
  h !! s = Some xs →
  Forall course_typed actions →
  ∃ h' s', replay_courses h s actions = Some (h', s')
    ∧ h' !! s' = Some (xs ++ added actions)
    ∧ h' !! s = Some xs.
Proof.
  induction actions as [|a rest IH]; intros h s xs Hs Hall.
  - exists h, s. simpl. by rewrite app_nil_r.
  - apply Forall_cons in Hall as [Ha Hrest].
    assert (Hstep : ∃ h1 s1, courseReducer h (Some s) a = Some (h1, s1)
              ∧ h1 !! s1 = Some (xs ++ added [a])).
    { destruct a as [p|t]; simpl in Ha.
      - exists (h ++ [xs ++ [p]]), (length h).
        split; [by apply courseReducer_add|]. by apply list_lookup_middle.
      - exists h, s. split; [by apply courseReducer_foreign|].
        simpl. by rewrite app_nil_r. }
    destruct Hstep as (h1 & s1 & Hstep & Hs1).
    destruct (IH h1 s1 _ Hs1 Hrest) as (h' & s' & Hrun & Hend & _).
    exists h', s'. cbn [replay_courses]. rewrite Hstep. simpl.
    split; [exact Hrun|]. split.
    + rewrite Hend, <- app_assoc. f_equal. f_equal. by destruct a.
    + eapply replay_keeps; [exact Hrun|]. by eapply courseReducer_keeps.
Qed.

Lemma replay_appends_payloads_witness :
  let tea := mkCourseItem "2" "Botany" "Tea" in
  let ink := mkCourseItem "3" "Arts" "Ink" in
  ∃ h' s',
    replay_courses arrays0 initialState
      [AddItemAction tea; Foreign "[Todo Page] Load Todos"; AddItemAction ink]
    = Some (h', s')
    ∧ h' !! s'
      = Some [mkCourseItem "1" "Computer Engineering" "C++ Programming"; tea; ink]
    ∧ h' !! initialState
      = Some [mkCourseItem "1" "Computer Engineering" "C++ Programming"].
Proof.
  intros tea ink.
  apply (replay_appends_payloads
           [AddItemAction tea; Foreign "[Todo Page] Load Todos"; AddItemAction ink]
           arrays0 initialState _ eq_refl).
  repeat apply Forall_cons_2; try apply Forall_nil_2; simpl; try done.
Defined.

(** X13: the course reducer returns the array it was given exactly when
    the action is not an [AddItemAction]; for an [AddItemAction] it returns
    a new array.  Called without a state, it takes [initialState]. *)
Theorem course_same_reference_iff_other h s a h' s' :
  is_Some (h !! s) →
  courseReducer h (Some s) a = Some (h', s') →
  (s' = s ↔ type a ≠ ADD_ITEM)
  ∧ courseReducer h None a = courseReducer h (Some initialState) a.
Proof.
  intros [xs Hs] Hrun. split; [|reflexivity].
  pose proof (lookup_lt_Some _ _ _ Hs) as Hlt.
  unfold courseReducer in Hrun. simpl in Hrun.
  destruct (String.eqb_spec (type a) ADD_ITEM) as [Heq|Hne].
  - destruct a as [p|t]; [|discriminate].
    rewrite Hs in Hrun. simpl in Hrun. injection Hrun as <- <-.
    split; [lia|done].
  - injection Hrun as <- <-. done.
Qed.

Lemma course_same_reference_iff_other_witness :
  let a := Foreign "[Todo Page] Load Todos" in
  (is_Some (arrays0 !! initialState)
   ∧ courseReducer arrays0 (Some initialState) a = Some (arrays0, initialState)
   ∧ (initialState = initialState ↔ type a ≠ ADD_ITEM)
   ∧ courseReducer arrays0 None a = Some (arrays0, initialState)).
Proof.
  intros a.
  assert (Hs : is_Some (arrays0 !! initialState)) by (eexists; reflexivity).
  destruct (course_same_reference_iff_other arrays0 initialState a arrays0 initialState
              Hs eq_refl) as [Hiff Hdefault].
  split; [exact Hs|]. split; [reflexivity|]. split; [exact Hiff|].
  rewrite Hdefault. reflexivity.
Defined.

End CourseProps.
